(** * Answer-equivalence checker of the tutoring backend

    A shallow embedding of [utils/latex_utils.py], [models/answer_models.py]
    and of the [check_answer] handler of [routers/answer.py].

    - Python [str] values are lists of Unicode code points.
    - The [re] module is embedded as a backtracking matcher over the regular
      expressions the module uses, with [re.sub] and [re.findall] on top.
    - SymPy and the [int] builtin are interfaces: every operation may raise,
      and the handlers of the source are kept.
    - Python [float] values are IEEE binary64 numbers ([PrimFloat]). *)

From Stdlib Require Import String Ascii.
From Stdlib Require Import List NArith ZArith Bool Lia.
From Stdlib Require Import DecimalString.
From Stdlib Require Import PrimFloat.
Import ListNotations.

Set Implicit Arguments.
Set Warnings "-inexact-float".

(** ** Strings *)

Module Str.

(** A character is a code point, a [str] a sequence of them. *)
Definition char := N.
Definition str := list char.

(** A literal of the source, written as a Rocq string of ASCII characters. *)
Definition lit (s : string) : str :=
  List.map N_of_ascii (list_ascii_of_string s).

Definition ch (a : ascii) : char := N_of_ascii a.

Definition DOLLAR : char := 36%N.
Definition NEWLINE : char := 10%N.
Definition BACKSLASH : char := 92%N.
Definition LBRACE : char := 123%N.
Definition RBRACE : char := 125%N.
Definition LBRACKET : char := 91%N.
Definition RBRACKET : char := 93%N.
Definition EQUALS : char := 61%N.

Definition str_eqb (a b : str) : bool :=
  if list_eq_dec N.eq_dec a b then true else false.

(** [str.isspace] on one character, which is also the class [\s] of a [str]
    pattern: the code points CPython lists as whitespace. *)
Definition is_space (c : char) : bool :=
  ((9 <=? c) && (c <=? 13) || (28 <=? c) && (c <=? 32)
   || (c =? 133) || (c =? 160) || (c =? 5760)
   || (8192 <=? c) && (c <=? 8202)
   || (c =? 8232) || (c =? 8233) || (c =? 8239) || (c =? 8287)
   || (c =? 12288))%N.

Fixpoint lstrip (s : str) : str :=
  match s with
  | c :: t => if is_space c then lstrip t else s
  | [] => []
  end.

Definition rstrip (s : str) : str := rev (lstrip (rev s)).

(** [s.strip()] *)
Definition strip (s : str) : str := rstrip (lstrip s).

(** [c in s] for a one-character needle. *)
Definition contains (c : char) (s : str) : bool :=
  existsb (N.eqb c) s.

(** [s.split(sep, 1)] for a one-character separator: one piece when [sep]
    does not occur, otherwise the text before and after its first
    occurrence. *)
Fixpoint split1 (sep : char) (s : str) : list str :=
  match s with
  | [] => [[]]
  | c :: t =>
      if (c =? sep)%N then [[]; t]
      else match split1 sep t with
           | h :: r => (c :: h) :: r
           | [] => [[c]]
           end
  end.

(** [str(n)] for an [int]. *)
Definition str_of_Z (z : Z) : str :=
  lit (NilZero.string_of_int (Z.to_int z)).

End Str.
Import Str.

(** ** Regular expressions *)

Module Re.

(** The syntax of the patterns of the module.  A repetition has a character
    class as its body, which is all the source needs ([\s+], [.*?],
    [[^}]+], [\${1,2}]). *)
Inductive regex : Type :=
| Lit (w : str)                         (* a run of literal characters *)
| Cls (p : char -> bool)                (* one character of a class *)
| Bol                                   (* ^ *)
| Eol                                   (* $ *)
| Seq (r1 r2 : regex)
| Alt (r1 r2 : regex)                   (* r1|r2 *)
| Grp (n : nat) (r : regex)             (* capturing group number n *)
| Rep (greedy : bool) (lo : nat) (hi : option nat) (p : char -> bool).

(** The matcher's position: the index in the subject, the text from there
    on, and the groups closed so far (the latest first). *)
Record mstate : Type := MState {
  ms_pos : nat;
  ms_rest : str;
  ms_caps : list (nat * str)
}.

Definition cont := mstate -> option mstate.

Fixpoint strip_prefix (w l : str) : option str :=
  match w, l with
  | [], _ => Some l
  | a :: w', b :: l' => if (a =? b)%N then strip_prefix w' l' else None
  | _ :: _, [] => None
  end.

Definition can_more (hi : option nat) : bool :=
  match hi with Some O => false | _ => true end.

Definition dec (hi : option nat) : option nat := option_map pred hi.

(** Greedy repetition: one more character first, the continuation after
    fewer characters on backtracking. *)
Fixpoint rep_greedy (p : char -> bool) (lo : nat) (hi : option nat)
    (caps : list (nat * str)) (pos : nat) (l : str) (k : cont)
    {struct l} : option mstate :=
  let stop := match lo with O => k (MState pos l caps) | S _ => None end in
  match l with
  | c :: t =>
      if p c && can_more hi then
        match rep_greedy p (pred lo) (dec hi) caps (S pos) t k with
        | Some r => Some r
        | None => stop
        end
      else stop
  | [] => stop
  end.

(** Lazy repetition: the continuation first, one more character on
    backtracking. *)
Fixpoint rep_lazy (p : char -> bool) (lo : nat) (hi : option nat)
    (caps : list (nat * str)) (pos : nat) (l : str) (k : cont)
    {struct l} : option mstate :=
  match lo with
  | O =>
      match k (MState pos l caps) with
      | Some r => Some r
      | None =>
          match l with
          | c :: t =>
              if p c && can_more hi
              then rep_lazy p O (dec hi) caps (S pos) t k else None
          | [] => None
          end
      end
  | S lo' =>
      match l with
      | c :: t =>
          if p c && can_more hi
          then rep_lazy p lo' (dec hi) caps (S pos) t k else None
      | [] => None
      end
  end.

(** [$] without MULTILINE: the end of the subject, or just before a newline
    that ends it. *)
Definition at_eol (l : str) : bool :=
  match l with
  | [] => true
  | [c] => (c =? NEWLINE)%N
  | _ => false
  end.

(** The backtracking matcher, in continuation-passing style: [k] is the rest
    of the pattern, and [None] sends the matcher back to its latest choice. *)
Fixpoint rmatch (r : regex) (st : mstate) (k : cont) : option mstate :=
  match r with
  | Lit w =>
      match strip_prefix w (ms_rest st) with
      | Some l' => k (MState (ms_pos st + length w) l' (ms_caps st))
      | None => None
      end
  | Cls p =>
      match ms_rest st with
      | c :: t => if p c then k (MState (S (ms_pos st)) t (ms_caps st)) else None
      | [] => None
      end
  | Bol => if Nat.eqb (ms_pos st) 0 then k st else None
  | Eol => if at_eol (ms_rest st) then k st else None
  | Seq r1 r2 => rmatch r1 st (fun st' => rmatch r2 st' k)
  | Alt r1 r2 =>
      match rmatch r1 st k with
      | Some res => Some res
      | None => rmatch r2 st k
      end
  | Grp n r1 =>
      rmatch r1 st (fun st' =>
        k (MState (ms_pos st') (ms_rest st')
             ((n, firstn (ms_pos st' - ms_pos st) (ms_rest st)) :: ms_caps st')))
  | Rep true lo hi p => rep_greedy p lo hi (ms_caps st) (ms_pos st) (ms_rest st) k
  | Rep false lo hi p => rep_lazy p lo hi (ms_caps st) (ms_pos st) (ms_rest st) k
  end.

(** One attempt of [search] at position [pos]; with [must_advance] an empty
    match is refused there, as after an empty match of the previous round. *)
Definition attempt (r : regex) (must_advance : bool) (pos : nat) (l : str)
  : option mstate :=
  rmatch r (MState pos l [])
    (fun st => if must_advance && Nat.eqb (ms_pos st) pos then None else Some st).

(** What a left-to-right scan of the subject yields: the characters outside
    the matches, and the matches. *)
Inductive piece : Type :=
| Keep (c : char)
| Hit (st : mstate).

(** The loop shared by [re.sub] and [re.findall]: successive non-overlapping
    matches, leftmost first.  [skip] counts the characters still inside the
    latest match. *)
Fixpoint scan (r : regex) (pos : nat) (l : str) (skip : nat) {struct l}
  : list piece :=
  match skip with
  | S n =>
      match l with
      | [] => []
      | _ :: t => scan r (S pos) t n
      end
  | O =>
      match attempt r false pos l with
      | None =>
          match l with
          | [] => []
          | c :: t => Keep c :: scan r (S pos) t 0
          end
      | Some st =>
          Hit st ::
          if Nat.eqb (ms_pos st) pos then
            match attempt r true pos l with
            | Some st' =>
                Hit st' ::
                match l with
                | [] => []
                | _ :: t => scan r (S pos) t (ms_pos st' - pos - 1)
                end
            | None =>
                match l with
                | [] => []
                | c :: t => Keep c :: scan r (S pos) t 0
                end
            end
          else
            match l with
            | [] => []
            | _ :: t => scan r (S pos) t (ms_pos st - pos - 1)
            end
      end
  end.

(** [m.group(n)]; a group that took no part in the match is empty in a
    replacement and in [findall]. *)
Fixpoint group (n : nat) (caps : list (nat * str)) : str :=
  match caps with
  | [] => []
  | (m, s) :: t => if Nat.eqb m n then s else group n t
  end.

(** A replacement template: literal text and group references. *)
Inductive titem : Type :=
| TLit (s : str)
| TRef (n : nat).

Definition expand_template (tpl : list titem) (st : mstate) : str :=
  flat_map (fun it => match it with
                      | TLit s => s
                      | TRef n => group n (ms_caps st)
                      end) tpl.

(** [re.sub(r, tpl, s)] *)
Definition sub (r : regex) (tpl : list titem) (s : str) : str :=
  flat_map (fun pc => match pc with
                      | Keep c => [c]
                      | Hit st => expand_template tpl st
                      end) (scan r 0 s 0).

(** [re.findall(r, s)] for a pattern with exactly one group. *)
Definition findall (r : regex) (s : str) : list str :=
  flat_map (fun pc => match pc with
                      | Keep _ => []
                      | Hit st => [group 1 (ms_caps st)]
                      end) (scan r 0 s 0).

Definition is_chr (c : char) : char -> bool := N.eqb c.
Definition not_chr (c : char) : char -> bool := fun x => negb (N.eqb x c).
(** [.] without DOTALL *)
Definition dot : char -> bool := not_chr NEWLINE.

End Re.
Import Re.

(** ** Exceptions *)

Module Py.

(** The exceptions of the module are instances of [Exception]; the handler
    of the multiple-choice branch tells [ValueError] from the others.
    The text is [str(e)]. *)
Inductive exn : Type :=
| ValueError (msg : str)
| OtherError (msg : str).

Definition exn_text (e : exn) : str :=
  match e with ValueError m => m | OtherError m => m end.

Inductive result (A : Type) : Type :=
| Ok (a : A)
| Raise (e : exn).
Arguments Ok {A} a.
Arguments Raise {A} e.

Definition bind {A B : Type} (m : result A) (f : A -> result B) : result B :=
  match m with
  | Ok a => f a
  | Raise e => Raise e
  end.

(** [try: m  except Exception as e: return h e], as the whole body of a
    function. *)
Definition try_or {A : Type} (m : result A) (h : exn -> A) : A :=
  match m with
  | Ok a => a
  | Raise e => h e
  end.

(** [try: m  except ValueError: h]; any other exception goes on. *)
Definition except_ValueError {A : Type} (m : result A) (h : result A)
  : result A :=
  match m with
  | Raise (ValueError _) => h
  | _ => m
  end.

End Py.
Import Py.

Notation "x <- m ;; f" := (bind m (fun x => f))
  (at level 61, m at next level, right associativity).

(** ** The libraries the module calls *)

(** SymPy, as far as [latex_utils] uses it.  Every call may raise.
    [sympify] may return [None]; [equals] and [eq_zero] stand for the truth
    value of [a.equals(b)] and of [a == 0]; [to_float] is
    [float(a.evalf())]. *)
Class SymPy : Type := {
  expr : Type;
  sympify : str -> result (option expr);
  simplify : expr -> result expr;
  expand : expr -> result expr;
  factor : expr -> result expr;
  equals : expr -> expr -> result bool;
  minus : expr -> expr -> result expr;
  eq_zero : expr -> result bool;
  to_float : expr -> result float
}.

(** The builtin [int] on a [str]. *)
Class Builtins : Type := {
  py_int : str -> result Z
}.

(** ** utils/latex_utils.py *)

Module LatexUtils.

(** [\${1,2}(.*?)\${1,2}] *)
Definition DELIMITED : regex :=
  Seq (Rep true 1 (Some 2) (is_chr DOLLAR))
    (Seq (Grp 1 (Rep false 0 None dot))
       (Rep true 1 (Some 2) (is_chr DOLLAR))).

(** [\s+] *)
Definition SPACES : regex := Rep true 1 None is_space.

(** [^\$|\$$] *)
Definition EDGE_DOLLAR : regex :=
  Alt (Seq Bol (Lit [DOLLAR])) (Seq (Lit [DOLLAR]) Eol).

(** [([^}]+)] and [([^]]+)] as group [n] *)
Definition braced (n : nat) : regex := Grp n (Rep true 1 None (not_chr RBRACE)).
Definition bracketed (n : nat) : regex := Grp n (Rep true 1 None (not_chr RBRACKET)).

(** [\\name\{([^}]+)\}] *)
Definition macro1 (name : string) : regex :=
  Seq (Lit (BACKSLASH :: lit name ++ [LBRACE])) (Seq (braced 1) (Lit [RBRACE])).

(** [\\frac\{([^}]+)\}\{([^}]+)\}] *)
Definition FRAC : regex :=
  Seq (Lit (lit "\frac{"))
    (Seq (braced 1) (Seq (Lit (lit "}{")) (Seq (braced 2) (Lit [RBRACE])))).

(** [\\sqrt\[([^]]+)\]\{([^}]+)\}] *)
Definition NTH_ROOT : regex :=
  Seq (Lit (lit "\sqrt["))
    (Seq (bracketed 1) (Seq (Lit (lit "]{")) (Seq (braced 2) (Lit [RBRACE])))).

(** [name(\1)] *)
Definition call1 (name : string) : list titem :=
  [TLit (lit name ++ lit "("); TRef 1; TLit (lit ")")].

(** The rewrites of [latex_to_sympy] after the delimiters are stripped, in
    the order of the source. *)
Definition rules : list (regex * list titem) :=
  [ (FRAC, [TLit (lit "("); TRef 1; TLit (lit ")/("); TRef 2; TLit (lit ")")]);
    (macro1 "sqrt", call1 "sqrt");
    (NTH_ROOT, [TLit (lit "("); TRef 2; TLit (lit ")**(1/("); TRef 1; TLit (lit "))")]);
    (macro1 "sin", call1 "sin");
    (macro1 "cos", call1 "cos");
    (macro1 "tan", call1 "tan");
    (macro1 "log", call1 "log");
    (macro1 "ln", call1 "log");
    (Lit (lit "\pi"), [TLit (lit "pi")]);
    (Lit (lit "\theta"), [TLit (lit "theta")]);
    (Lit (lit "\infty"), [TLit (lit "oo")]);
    (Lit (lit "\mathrm{e}"), [TLit (lit "E")]);
    (Lit (lit "\cdot"), [TLit (lit "*")]);
    (Lit (lit "\div"), [TLit (lit "/")]);
    (Lit (lit "\pm"), [TLit (lit "+/-")]) ].

Definition apply_rules (rs : list (regex * list titem)) (s : str) : str :=
  fold_left (fun acc rt => Re.sub (fst rt) (snd rt) acc) rs s.

(** The text [latex_to_sympy] hands to [sympy.sympify]. *)
Definition translate (latex : str) : str :=
  apply_rules rules (Re.sub EDGE_DOLLAR [] (strip latex)).

Definition extract_math_expr (latex : str) : str :=
  match Re.findall DELIMITED latex with
  | m :: _ => strip m
  | [] => strip latex
  end.

Definition clean_latex (latex : str) : str :=
  let cleaned := Re.sub SPACES [] latex in
  Re.sub EDGE_DOLLAR [] cleaned.

Section WithSymPy.
Context {cas : SymPy}.

Definition latex_to_sympy (latex : str) : option expr :=
  try_or (sympify (translate latex)) (fun _ => None).

Definition check_numeric_equivalence (e1 e2 : str) : bool :=
  try_or
    (let s1 := latex_to_sympy e1 in
     let s2 := latex_to_sympy e2 in
     match s1, s2 with
     | Some a, Some b =>
         f1 <- to_float a ;;
         f2 <- to_float b ;;
         Ok (PrimFloat.ltb (PrimFloat.abs (PrimFloat.sub f1 f2)) 1e-9)
     | _, _ => Ok false
     end)
    (fun _ => false).

Definition check_symbolic_equivalence (e1 e2 : str) : bool :=
  try_or
    (let s1 := latex_to_sympy e1 in
     let s2 := latex_to_sympy e2 in
     match s1, s2 with
     | Some a, Some b =>
         a' <- simplify a ;;
         b' <- simplify b ;;
         equals a' b'
     | _, _ => Ok false
     end)
    (fun _ => false).

Definition check_algebraic_equivalence (e1 e2 : str) : bool :=
  try_or
    (let s1 := latex_to_sympy e1 in
     let s2 := latex_to_sympy e2 in
     match s1, s2 with
     | Some a, Some b =>
         xa <- expand a ;;
         xb <- expand b ;;
         same <- equals xa xb ;;
         if same then Ok true
         else
           fa <- factor a ;;
           fb <- factor b ;;
           same' <- equals fa fb ;;
           if same' then Ok true
           else
             d <- minus a b ;;
             z <- simplify d ;;
             eq_zero z
     | _, _ => Ok false
     end)
    (fun _ => false).

(** [e.split("=", 1)[1].strip()] *)
Definition rhs_of (e : str) : str := strip (nth 1 (split1 EQUALS e) []).

Definition are_equivalent (user_expr correct_expr : str) : bool :=
  if check_symbolic_equivalence user_expr correct_expr then true
  else if contains EQUALS correct_expr && negb (contains EQUALS user_expr)
          && check_symbolic_equivalence user_expr (rhs_of correct_expr)
  then true
  else if contains EQUALS user_expr && negb (contains EQUALS correct_expr)
          && check_symbolic_equivalence (rhs_of user_expr) correct_expr
  then true
  else false.

End WithSymPy.

End LatexUtils.
Import LatexUtils.

(** ** models/answer_models.py *)

Inductive ProblemType : Type := SHORT_ANSWER | MULTIPLE_CHOICE.

Record AnswerCheckRequest : Type := {
  user_answer : str;
  correct_answer : str;
  problem_type : option str;
  question_type : option ProblemType;
  selected_option : option Z
}.

Record AnswerCheckResponse : Type := {
  is_correct : bool;
  confidence : float;
  explanation : str;
  error_message : option str;
  recognized_latex : option str
}.

(** A response built with the keywords the handler uses. *)
Definition response (ok : bool) (conf : float) (expl : str)
    (err : option str) : AnswerCheckResponse :=
  {| is_correct := ok; confidence := conf; explanation := expl;
     error_message := err; recognized_latex := None |}.

(** ** routers/answer.py *)

Module Answer.
Section Handler.
Context {cas : SymPy} {builtins : Builtins}.

Definition is_multiple_choice (req : AnswerCheckRequest) : bool :=
  match question_type req with
  | Some MULTIPLE_CHOICE => true
  | _ => false
  end.

(** The strategy table of the handler: name, outcome, weight. *)
Definition strategies (user_expr corr_expr : str)
  : list (string * bool * float) :=
  [ ("latex_exact"%string, str_eqb user_expr corr_expr, 1.0%float);
    ("numeric"%string, check_numeric_equivalence user_expr corr_expr, 0.9%float);
    ("symbolic"%string, check_symbolic_equivalence user_expr corr_expr, 0.8%float);
    ("algebraic"%string, check_algebraic_equivalence user_expr corr_expr, 0.7%float);
    ("rhs_equiv"%string, are_equivalent user_expr corr_expr, 0.95%float) ].

(** [next(((name, conf) for name, ok, conf in strategies if ok), None)] *)
Definition first_match (ss : list (string * bool * float))
  : option (string * float) :=
  hd_error (List.map (fun s => (fst (fst s), snd s))
              (List.filter (fun s => snd (fst s)) ss)).

Definition normalized (answer : str) : str :=
  clean_latex (extract_math_expr (strip answer)).

(** The body of the outer [try]. *)
Definition check_answer_body (request : AnswerCheckRequest)
  : result AnswerCheckResponse :=
  if is_multiple_choice request then
    match selected_option request with
    | None => Ok (response false 0.0 (lit "No option selected") None)
    | Some sel =>
        except_ValueError
          (correct_idx <- py_int (correct_answer request) ;;
           let is_corr := Z.eqb sel correct_idx in
           Ok (response is_corr
                 (if is_corr then 1.0 else 0.0)%float
                 (if is_corr then lit "Correct answer selected"
                  else lit "Incorrect. Correct option was "
                         ++ str_of_Z (correct_idx + 1) ++ lit ".")
                 None))
          (Ok (response false 0.0 (lit "Invalid correct_answer format")
                 (Some (lit "Invalid correct_answer format"))))
    end
  else
    let user_expr := normalized (user_answer request) in
    let corr_expr := normalized (correct_answer request) in
    match first_match (strategies user_expr corr_expr) with
    | Some (name, conf) =>
        Ok (response true conf
              (lit "Answer correct via " ++ lit name ++ lit " comparison") None)
    | None =>
        Ok (response false 0.0
              (lit "Answer is incorrect. Expected " ++ corr_expr
                 ++ lit ", got " ++ user_expr) None)
    end.

Definition check_answer (request : AnswerCheckRequest) : AnswerCheckResponse :=
  try_or (check_answer_body request)
    (fun e => response false 0.0 (lit "Validation error") (Some (exn_text e))).

End Handler.
End Answer.
Import Answer.

(** * Properties *)

Unset Implicit Arguments.
#[local] Arguments N.eqb : simpl never.

(** ** Strings *)

Module StrFacts.

Lemma lit_app (a b : string) : lit (a ++ b) = lit a ++ lit b.
Proof.
  unfold lit. induction a as [|c a IH]; simpl; [reflexivity|].
  now rewrite IH.
Qed.

Lemma str_eqb_eq (a b : str) : str_eqb a b = true <-> a = b.
Proof.
  unfold str_eqb. destruct (list_eq_dec N.eq_dec a b); split; congruence.
Qed.

Lemma str_eqb_refl (a : str) : str_eqb a a = true.
Proof. now apply str_eqb_eq. Qed.

Lemma lstrip_app_nonspace (s : str) (c : char) (t : str) :
  forallb is_space s = true -> is_space c = false ->
  lstrip (s ++ c :: t) = c :: t.
Proof.
  intros Hs Hc. induction s as [|a s IH]; simpl in *.
  - now rewrite Hc.
  - apply andb_true_iff in Hs as [Ha Hs]. rewrite Ha. now apply IH.
Qed.

Lemma lstrip_nonspace (c : char) (t : str) :
  is_space c = false -> lstrip (c :: t) = c :: t.
Proof. intros Hc. simpl. now rewrite Hc. Qed.

Lemma lstrip_idem (s : str) : lstrip (lstrip s) = lstrip s.
Proof.
  induction s as [|c s IH]; simpl; [reflexivity|].
  destruct (is_space c) eqn:E; [exact IH|]. simpl. now rewrite E.
Qed.

(** What [lstrip] leaves is a suffix that does not start with a space. *)
Lemma lstrip_spec (s : str) :
  exists pre, s = pre ++ lstrip s /\ forallb is_space pre = true
              /\ (match lstrip s with [] => True | c :: _ => is_space c = false end).
Proof.
  induction s as [|c s (pre & E & Hp & Hh)]; simpl.
  - exists []. now repeat split.
  - destruct (is_space c) eqn:Ec.
    + exists (c :: pre). simpl. rewrite Ec, Hp. repeat split; [now f_equal | exact Hh].
    + exists []. now repeat split.
Qed.

Lemma rstrip_snoc_nonspace (s : str) (c : char) :
  is_space c = false -> rstrip (s ++ [c]) = s ++ [c].
Proof.
  intros Hc. unfold rstrip. rewrite rev_app_distr. simpl.
  rewrite Hc. simpl. now rewrite rev_involutive.
Qed.

Lemma rstrip_idem (s : str) : rstrip (rstrip s) = rstrip s.
Proof. unfold rstrip. now rewrite rev_involutive, lstrip_idem. Qed.

(** [lstrip] after [rstrip] is [rstrip] after [lstrip]. *)
Lemma lstrip_rstrip (s : str) : lstrip (rstrip s) = rstrip (lstrip s).
Proof.
  induction s as [|c s IH]; [reflexivity|].
  destruct (is_space c) eqn:Ec.
  - (* a leading space *)
    change (lstrip (c :: s)) with (if is_space c then lstrip s else c :: s).
    rewrite Ec, <- IH.
    unfold rstrip at 1. simpl rev.
    destruct (lstrip_spec (rev s)) as (pre & E & Hp & Hh).
    destruct (lstrip (rev s)) as [|d u] eqn:El.
    + (* everything is a space *)
      rewrite app_nil_r in E. rewrite E.
      assert (Hall : forallb is_space (pre ++ [c]) = true).
      { rewrite forallb_app, Hp. simpl. now rewrite Ec. }
      assert (Hn : forall l, forallb is_space l = true -> lstrip l = []).
      { induction l as [|a l IHl]; simpl; [reflexivity|].
        intros H. apply andb_true_iff in H as [Ha Hl]. rewrite Ha. now apply IHl. }
      rewrite (Hn _ Hall). simpl.
      unfold rstrip. rewrite E, (Hn _ Hp). reflexivity.
    + rewrite E at 1. rewrite <- app_assoc. simpl.
      rewrite (lstrip_app_nonspace pre d (u ++ [c]) Hp Hh).
      simpl rev. rewrite rev_app_distr. simpl. rewrite Ec.
      unfold rstrip. rewrite El. reflexivity.
  - rewrite (lstrip_nonspace c s Ec).
    unfold rstrip. simpl rev.
    destruct (lstrip_spec (rev s ++ [c])) as (pre & E & Hp & Hh).
    destruct (lstrip (rev s ++ [c])) as [|d u] eqn:El.
    + exfalso. rewrite app_nil_r in E.
      rewrite <- E, forallb_app in Hp. simpl in Hp. rewrite Ec in Hp.
      rewrite andb_false_r in Hp. discriminate.
    + (* the result ends with [c] *)
      assert (Hlast : exists v, rev (d :: u) = c :: v).
      { assert (H : rev (rev s ++ [c]) = rev (pre ++ d :: u)) by now rewrite E.
        rewrite rev_app_distr in H. simpl in H.
        rewrite rev_app_distr in H. simpl in H.
        destruct (rev u ++ [d]) as [|x v] eqn:Ev.
        - destruct (rev u); discriminate.
        - simpl in H. injection H as Hx _. subst x. now exists v. }
      destruct Hlast as (v & Hv). rewrite Hv. simpl. now rewrite Ec.
Qed.

Lemma strip_idem (s : str) : strip (strip s) = strip s.
Proof.
  unfold strip. rewrite lstrip_rstrip, lstrip_idem. apply rstrip_idem.
Qed.

(** A text that neither starts nor ends with a space is its own [strip]. *)
Lemma strip_fixed (c : char) (s : str) (d : char) :
  is_space c = false -> is_space d = false ->
  strip (c :: s ++ [d]) = c :: s ++ [d].
Proof.
  intros Hc Hd. unfold strip. rewrite (lstrip_nonspace c _ Hc).
  change (c :: s ++ [d]) with ((c :: s) ++ [d]). now apply rstrip_snoc_nonspace.
Qed.

End StrFacts.
Import StrFacts.

(** ** The matcher and the scanning loop *)

Module ReFacts.

(** [re.sub] and [re.findall] from a position other than the start, for
    induction along the subject. *)
Definition render (tpl : list titem) (pcs : list piece) : str :=
  flat_map (fun pc => match pc with
                      | Keep c => [c]
                      | Hit st => expand_template tpl st
                      end) pcs.

Definition sub_at (r : regex) (tpl : list titem) (pos : nat) (l : str) : str :=
  render tpl (scan r pos l 0).

Definition hits (pcs : list piece) : list str :=
  flat_map (fun pc => match pc with
                      | Keep _ => []
                      | Hit st => [group 1 (ms_caps st)]
                      end) pcs.

Lemma sub_eq (r : regex) (tpl : list titem) (s : str) :
  Re.sub r tpl s = sub_at r tpl 0 s.
Proof. reflexivity. Qed.

Lemma findall_eq (r : regex) (s : str) :
  Re.findall r s = hits (scan r 0 s 0).
Proof. reflexivity. Qed.

Lemma scan_skip (r : regex) :
  forall n l pos, n <= length l ->
    scan r pos l n = scan r (pos + n) (skipn n l) 0.
Proof.
  induction n as [|n IH]; intros l pos Hn.
  - now rewrite Nat.add_0_r.
  - destruct l as [|c t]; simpl in Hn; [lia|].
    change (scan r pos (c :: t) (S n)) with (scan r (S pos) t n).
    rewrite IH by lia. simpl skipn. f_equal. lia.
Qed.

Lemma scan_miss (r : regex) (pos : nat) (c : char) (t : str) :
  attempt r false pos (c :: t) = None ->
  scan r pos (c :: t) 0 = Keep c :: scan r (S pos) t 0.
Proof.
  intros H.
  change (scan r pos (c :: t) 0) with
    (match attempt r false pos (c :: t) with
     | None => Keep c :: scan r (S pos) t 0
     | Some st =>
         Hit st ::
         if Nat.eqb (ms_pos st) pos then
           match attempt r true pos (c :: t) with
           | Some st' => Hit st' :: scan r (S pos) t (ms_pos st' - pos - 1)
           | None => Keep c :: scan r (S pos) t 0
           end
         else scan r (S pos) t (ms_pos st - pos - 1)
     end).
  now rewrite H.
Qed.

Lemma scan_miss_nil (r : regex) (pos : nat) :
  attempt r false pos [] = None -> scan r pos [] 0 = [].
Proof.
  intros H.
  change (scan r pos [] 0) with
    (match attempt r false pos [] with
     | None => []
     | Some st =>
         Hit st ::
         if Nat.eqb (ms_pos st) pos then
           match attempt r true pos [] with
           | Some st' => [Hit st']
           | None => []
           end
         else []
     end).
  now rewrite H.
Qed.

(** A match of [n > 0] characters is reported and the scan goes on after
    it. *)
Lemma scan_hit (r : regex) (pos : nat) (l : str) (st : mstate) (n : nat) :
  attempt r false pos l = Some st ->
  ms_pos st = pos + n -> 0 < n <= length l ->
  scan r pos l 0 = Hit st :: scan r (pos + n) (skipn n l) 0.
Proof.
  intros H Hp Hn. destruct l as [|c t]; [simpl in Hn; lia|].
  change (scan r pos (c :: t) 0) with
    (match attempt r false pos (c :: t) with
     | None => Keep c :: scan r (S pos) t 0
     | Some st =>
         Hit st ::
         if Nat.eqb (ms_pos st) pos then
           match attempt r true pos (c :: t) with
           | Some st' => Hit st' :: scan r (S pos) t (ms_pos st' - pos - 1)
           | None => Keep c :: scan r (S pos) t 0
           end
         else scan r (S pos) t (ms_pos st - pos - 1)
     end).
  rewrite H, Hp.
  replace (Nat.eqb (pos + n) pos) with false
    by (symmetry; apply Nat.eqb_neq; lia).
  f_equal. simpl in Hn. rewrite scan_skip by lia.
  destruct n as [|n]; [lia|]. simpl skipn.
  replace (pos + S n - pos - 1) with n by lia.
  f_equal. lia.
Qed.

Lemma sub_at_miss r tpl pos c t :
  attempt r false pos (c :: t) = None ->
  sub_at r tpl pos (c :: t) = c :: sub_at r tpl (S pos) t.
Proof. intros H. unfold sub_at. now rewrite scan_miss. Qed.

Lemma sub_at_nil r tpl pos :
  attempt r false pos [] = None -> sub_at r tpl pos [] = [].
Proof. intros H. unfold sub_at. now rewrite scan_miss_nil. Qed.

Lemma sub_at_hit r tpl pos l st n :
  attempt r false pos l = Some st ->
  ms_pos st = pos + n -> 0 < n <= length l ->
  sub_at r tpl pos l = expand_template tpl st ++ sub_at r tpl (pos + n) (skipn n l).
Proof. intros H Hp Hn. unfold sub_at. now rewrite (scan_hit _ _ _ _ _ H Hp Hn). Qed.

(** Where no attempt succeeds the subject is copied. *)
Lemma scan_no_match (r : regex) :
  forall l pos,
    (forall i, i <= length l -> attempt r false (pos + i) (skipn i l) = None) ->
    scan r pos l 0 = List.map Keep l.
Proof.
  induction l as [|c t IH]; intros pos H.
  - apply scan_miss_nil. specialize (H 0 (Nat.le_0_l _)).
    now rewrite Nat.add_0_r in H.
  - rewrite scan_miss.
    + simpl. f_equal. apply IH. intros i Hi.
      specialize (H (S i)). simpl in H.
      replace (S pos + i) with (pos + S i) by lia. apply H. lia.
    + specialize (H 0 (Nat.le_0_l _)). now rewrite Nat.add_0_r in H.
Qed.

Lemma render_keep (tpl : list titem) (l : str) :
  render tpl (List.map Keep l) = l.
Proof. induction l as [|c t IH]; simpl; [reflexivity | now rewrite IH]. Qed.

Lemma render_app tpl a b : render tpl (a ++ b) = render tpl a ++ render tpl b.
Proof. unfold render. apply flat_map_app. Qed.

Lemma sub_at_no_match (r : regex) (tpl : list titem) (l : str) (pos : nat) :
  (forall i, i <= length l -> attempt r false (pos + i) (skipn i l) = None) ->
  sub_at r tpl pos l = l.
Proof.
  intros H. unfold sub_at. rewrite scan_no_match by exact H. apply render_keep.
Qed.

(** The scan copies a prefix in which no attempt succeeds. *)
Lemma scan_prefix (r : regex) :
  forall pre l pos,
    (forall i, i < length pre ->
       attempt r false (pos + i) (skipn i (pre ++ l)) = None) ->
    scan r pos (pre ++ l) 0 = List.map Keep pre ++ scan r (pos + length pre) l 0.
Proof.
  induction pre as [|c t IH]; intros l pos H.
  - simpl. now rewrite Nat.add_0_r.
  - simpl app. rewrite scan_miss.
    + simpl. f_equal. rewrite IH.
      * f_equal. f_equal. lia.
      * intros i Hi. specialize (H (S i)). simpl in H.
        replace (S pos + i) with (pos + S i) by lia. apply H. lia.
    + specialize (H 0). simpl in H. rewrite Nat.add_0_r in H. apply H. lia.
Qed.

(** The character a match has to start with, where the pattern fixes it. *)
Fixpoint first_char (r : regex) : option char :=
  match r with
  | Lit (a :: _) => Some a
  | Seq r1 _ => first_char r1
  | Grp _ r1 => first_char r1
  | _ => None
  end.

Definition head_is (a : char) (l : str) : bool :=
  match l with
  | c :: _ => (a =? c)%N
  | [] => false
  end.

Lemma rmatch_first_char (r : regex) :
  forall a st k,
    first_char r = Some a -> head_is a (ms_rest st) = false ->
    rmatch r st k = None.
Proof.
  induction r as [w|p| | |r1 IH1 r2 IH2|r1 IH1 r2 IH2|n r1 IH1|g lo hi p];
    intros a st k Hf Hh; simpl in Hf; try discriminate.
  - destruct w as [|b w]; [discriminate|]. injection Hf as ->.
    simpl. destruct (ms_rest st) as [|c t]; [reflexivity|].
    simpl in Hh. simpl. now rewrite Hh.
  - simpl. now apply IH1 with (a := a).
  - simpl. now apply IH1 with (a := a).
Qed.

Lemma attempt_first_char r a b pos l :
  first_char r = Some a -> head_is a l = false -> attempt r b pos l = None.
Proof. intros Hf Hh. unfold attempt. now apply rmatch_first_char with (a := a). Qed.

Lemma head_is_skipn_notin (a : char) (l : str) (i : nat) :
  ~ In a l -> head_is a (skipn i l) = false.
Proof.
  revert i. induction l as [|c t IH]; intros i Hn.
  - now destruct i.
  - destruct i as [|i]; simpl.
    + apply N.eqb_neq. intros ->. apply Hn. now left.
    + apply IH. intros Hin. apply Hn. now right.
Qed.

(** A pattern that starts with a character the subject lacks changes
    nothing. *)
Lemma sub_absent_char (r : regex) (tpl : list titem) (a : char) (l : str) :
  first_char r = Some a -> ~ In a l -> Re.sub r tpl l = l.
Proof.
  intros Hf Hn. rewrite sub_eq. apply sub_at_no_match. intros i _.
  apply attempt_first_char with (a := a); [exact Hf|].
  now apply head_is_skipn_notin.
Qed.

(** The length of the longest prefix in a class. *)
Fixpoint span (p : char -> bool) (l : str) : nat :=
  match l with
  | c :: t => if p c then S (span p t) else 0
  | [] => 0
  end.

Lemma span_le p l : span p l <= length l.
Proof. induction l as [|c t IH]; simpl; [lia|]. destruct (p c); simpl; lia. Qed.

Lemma span_firstn p l : forallb p (firstn (span p l) l) = true.
Proof.
  induction l as [|c t IH]; simpl; [reflexivity|].
  destruct (p c) eqn:E; simpl; [now rewrite E|reflexivity].
Qed.

Lemma span_app_stop p a c t :
  forallb p a = true -> p c = false -> span p (a ++ c :: t) = length a.
Proof.
  intros Ha Hc. induction a as [|x a IH]; simpl in *.
  - now rewrite Hc.
  - apply andb_true_iff in Ha as [Hx Ha]. rewrite Hx. f_equal. now apply IH.
Qed.

Lemma span_all p a : forallb p a = true -> span p a = length a.
Proof.
  intros Ha. induction a as [|x a IH]; simpl in *; [reflexivity|].
  apply andb_true_iff in Ha as [Hx Ha]. rewrite Hx. f_equal. now apply IH.
Qed.

Lemma skipn_length_app {A : Type} (a b : list A) : skipn (length a) (a ++ b) = b.
Proof. induction a as [|x a IH]; simpl; [reflexivity | exact IH]. Qed.

Lemma firstn_length_app {A : Type} (a b : list A) : firstn (length a) (a ++ b) = a.
Proof. induction a as [|x a IH]; simpl; [reflexivity | now rewrite IH]. Qed.

(** An unbounded greedy repetition whose continuation accepts the longest
    run stops there. *)
Lemma rep_greedy_span p caps k res :
  forall l lo pos,
    lo <= span p l ->
    k (MState (pos + span p l) (skipn (span p l) l) caps) = Some res ->
    rep_greedy p lo None caps pos l k = Some res.
Proof.
  induction l as [|c t IH]; intros lo pos Hlo Hk; simpl in *.
  - assert (lo = 0) by lia. subst lo. now rewrite Nat.add_0_r in Hk.
  - destruct (p c) eqn:E; simpl in *.
    + rewrite (IH (pred lo) (S pos)); [reflexivity | lia |].
      now replace (S pos + span p t) with (pos + S (span p t)) by lia.
    + assert (lo = 0) by lia. subst lo. now rewrite Nat.add_0_r in Hk.
Qed.

(** It fails where the run is too short. *)
Lemma rep_greedy_short p caps k :
  forall l lo hi pos, span p l < lo -> rep_greedy p lo hi caps pos l k = None.
Proof.
  induction l as [|c t IH]; intros lo hi pos Hlo; simpl in *.
  - destruct lo; [lia | reflexivity].
  - destruct (p c) eqn:E; simpl.
    + destruct (can_more hi).
      * rewrite IH by (destruct lo; simpl; lia). destruct lo; [lia | reflexivity].
      * destruct lo; [lia | reflexivity].
    + destruct lo; [lia | reflexivity].
Qed.

End ReFacts.
Import ReFacts.

(** ** [clean_latex] *)

Module CleanFacts.

Definition not_space (c : char) : bool := negb (is_space c).

(** [s.startswith(c)] and [s.endswith(c)] for one character. *)
Definition starts_with (c : char) (s : str) : bool := head_is c s.

Fixpoint ends_with (c : char) (s : str) : bool :=
  match s with
  | [] => false
  | [x] => (c =? x)%N
  | _ :: t => ends_with c t
  end.

(** What [^\$|\$$] removes after the first character: a [$] that ends the
    text or stands before its final newline. *)
Fixpoint strip_end_dollar (l : str) : str :=
  match l with
  | [] => []
  | c :: t =>
      if (c =? DOLLAR)%N && at_eol t then strip_end_dollar t
      else c :: strip_end_dollar t
  end.

Definition strip_edge_dollars (l : str) : str :=
  match l with
  | [] => []
  | c :: t => if (c =? DOLLAR)%N then strip_end_dollar t
              else c :: strip_end_dollar t
  end.

Lemma attempt_spaces_hit pos l :
  0 < span is_space l ->
  attempt SPACES false pos l
  = Some (MState (pos + span is_space l) (skipn (span is_space l) l) []).
Proof.
  intros H. unfold attempt, SPACES. simpl rmatch.
  apply rep_greedy_span; [lia | reflexivity].
Qed.

Lemma attempt_spaces_miss pos l :
  span is_space l = 0 -> attempt SPACES false pos l = None.
Proof.
  intros H. unfold attempt, SPACES. simpl rmatch.
  apply rep_greedy_short. lia.
Qed.

Lemma filter_all_space (l : str) :
  forallb is_space l = true -> List.filter not_space l = [].
Proof.
  induction l as [|c t IH]; simpl; [reflexivity|]. intros H.
  apply andb_true_iff in H as [Hc Ht]. unfold not_space at 1. rewrite Hc.
  simpl. now apply IH.
Qed.

(** [re.sub(r"\s+", "", s)] keeps the characters that are not spaces. *)
Lemma sub_spaces_at :
  forall n l pos, length l <= n ->
    sub_at SPACES [] pos l = List.filter not_space l.
Proof.
  induction n as [|n IH]; intros l pos Hl.
  - destruct l; [|simpl in Hl; lia].
    apply sub_at_nil. now apply attempt_spaces_miss.
  - destruct l as [|c t].
    + apply sub_at_nil. now apply attempt_spaces_miss.
    + destruct (is_space c) eqn:Ec.
      * assert (Hs : 0 < span is_space (c :: t)) by (simpl; rewrite Ec; lia).
        pose proof (span_le is_space (c :: t)) as Hle.
        rewrite (sub_at_hit _ _ _ _ _ (span is_space (c :: t))
                   (attempt_spaces_hit pos _ Hs) eq_refl (conj Hs Hle)).
        simpl expand_template.
        rewrite IH.
        2:{ rewrite length_skipn. simpl in Hl. simpl length. lia. }
        pose proof (span_firstn is_space (c :: t)) as Hf.
        remember (span is_space (c :: t)) as m eqn:Em. clear Em.
        rewrite <- (firstn_skipn m (c :: t)) at 2.
        rewrite filter_app, (filter_all_space _ Hf). reflexivity.
      * rewrite sub_at_miss by (apply attempt_spaces_miss; simpl; now rewrite Ec).
        simpl. unfold not_space at 1. rewrite Ec. simpl. f_equal.
        apply IH. simpl in Hl. lia.
Qed.

Lemma sub_spaces (s : str) : Re.sub SPACES [] s = List.filter not_space s.
Proof. rewrite sub_eq. now apply sub_spaces_at with (n := length s). Qed.

Lemma attempt_edge_later p l :
  attempt EDGE_DOLLAR false (S p) l
  = match l with
    | c :: t => if (c =? DOLLAR)%N && at_eol t
                then Some (MState (S p + 1) t []) else None
    | [] => None
    end.
Proof.
  unfold attempt, EDGE_DOLLAR. destruct l as [|c t]; [reflexivity|].
  cbn -[N.eqb at_eol]. rewrite (N.eqb_sym DOLLAR c).
  destruct (c =? DOLLAR)%N; [|reflexivity].
  cbn -[at_eol]. now destruct (at_eol t).
Qed.

Lemma sub_edge_later :
  forall l p, sub_at EDGE_DOLLAR [] (S p) l = strip_end_dollar l.
Proof.
  induction l as [|c t IH]; intros p.
  - apply sub_at_nil. now rewrite attempt_edge_later.
  - pose proof (attempt_edge_later p (c :: t)) as Ha.
    cbv beta iota in Ha. simpl strip_end_dollar.
    destruct ((c =? DOLLAR)%N && at_eol t).
    + rewrite (sub_at_hit _ _ _ _ _ 1 Ha eq_refl) by (simpl; lia).
      simpl. replace (S (p + 1)) with (S (S p)) by lia. apply IH.
    + rewrite sub_at_miss by exact Ha. f_equal. apply IH.
Qed.

(** [re.sub(r"^\$|\$$", "", s)] *)
Lemma sub_edge (s : str) : Re.sub EDGE_DOLLAR [] s = strip_edge_dollars s.
Proof.
  rewrite sub_eq. destruct s as [|c t].
  - now apply sub_at_nil.
  - simpl strip_edge_dollars. destruct (c =? DOLLAR)%N eqn:Ec.
    + apply N.eqb_eq in Ec. subst c.
      assert (Ha : attempt EDGE_DOLLAR false 0 (DOLLAR :: t)
                   = Some (MState 1 t [])) by reflexivity.
      rewrite (sub_at_hit _ _ _ _ _ 1 Ha eq_refl) by (simpl; lia).
      simpl. apply sub_edge_later.
    + rewrite sub_at_miss.
      * f_equal. apply sub_edge_later.
      * unfold attempt, EDGE_DOLLAR. cbn -[N.eqb].
        rewrite (N.eqb_sym DOLLAR c), Ec. reflexivity.
Qed.

Lemma clean_latex_eq (s : str) :
  clean_latex s = strip_edge_dollars (List.filter not_space s).
Proof. unfold clean_latex. now rewrite sub_spaces, sub_edge. Qed.

Lemma strip_end_dollar_le l : length (strip_end_dollar l) <= length l.
Proof.
  induction l as [|c t IH]; simpl; [lia|].
  destruct ((c =? DOLLAR)%N && at_eol t); simpl; lia.
Qed.

Lemma strip_end_dollar_lt l :
  ends_with DOLLAR l = true -> length (strip_end_dollar l) < length l.
Proof.
  induction l as [|c t IH]; intros H; [discriminate|].
  destruct t as [|d u].
  - simpl in H. apply N.eqb_eq in H. subst c. simpl. lia.
  - change (ends_with DOLLAR (c :: d :: u)) with (ends_with DOLLAR (d :: u)) in H.
    specialize (IH H).
    change (strip_end_dollar (c :: d :: u)) with
      (if (c =? DOLLAR)%N && at_eol (d :: u) then strip_end_dollar (d :: u)
       else c :: strip_end_dollar (d :: u)).
    destruct ((c =? DOLLAR)%N && at_eol (d :: u)); simpl length in *; lia.
Qed.

Lemma strip_end_dollar_fixed l :
  forallb not_space l = true -> ends_with DOLLAR l = false ->
  strip_end_dollar l = l.
Proof.
  induction l as [|c t IH]; intros Hs He; [reflexivity|].
  simpl in Hs. apply andb_true_iff in Hs as [Hc Hs].
  simpl strip_end_dollar.
  destruct t as [|d u].
  - simpl in He. rewrite N.eqb_sym in He. rewrite He. reflexivity.
  - change (ends_with DOLLAR (c :: d :: u)) with (ends_with DOLLAR (d :: u)) in He.
    rewrite (IH Hs He).
    replace (at_eol (d :: u)) with false; [now rewrite andb_false_r|].
    destruct u as [|e u]; [|reflexivity].
    simpl in *. rewrite andb_true_r in Hs.
    destruct (d =? NEWLINE)%N eqn:Ed; [|reflexivity].
    apply N.eqb_eq in Ed. subst d. discriminate.
Qed.

Lemma filter_strip_end_dollar l :
  forallb not_space l = true -> forallb not_space (strip_end_dollar l) = true.
Proof.
  induction l as [|c t IH]; simpl; [reflexivity|]. intros H.
  apply andb_true_iff in H as [Hc Ht].
  destruct ((c =? DOLLAR)%N && at_eol t); simpl; [now apply IH|].
  now rewrite Hc, IH.
Qed.

Lemma filter_fixed l :
  forallb not_space l = true -> List.filter not_space l = l.
Proof.
  induction l as [|c t IH]; simpl; [reflexivity|]. intros H.
  apply andb_true_iff in H as [Hc Ht]. rewrite Hc. f_equal. now apply IH.
Qed.

Lemma forallb_filter_not_space l :
  forallb not_space (List.filter not_space l) = true.
Proof.
  induction l as [|c t IH]; simpl; [reflexivity|].
  destruct (not_space c) eqn:E; simpl; [now rewrite E|exact IH].
Qed.

Lemma clean_latex_no_space s : forallb not_space (clean_latex s) = true.
Proof.
  rewrite clean_latex_eq.
  pose proof (forallb_filter_not_space s) as H.
  destruct (List.filter not_space s) as [|c t]; [reflexivity|].
  simpl in *. apply andb_true_iff in H as [Hc Ht].
  destruct (c =? DOLLAR)%N; simpl.
  - now apply filter_strip_end_dollar.
  - now rewrite Hc, filter_strip_end_dollar.
Qed.

(** On a text without spaces a second cleaning only strips the edges
    again. *)
Lemma clean_latex_twice s :
  clean_latex (clean_latex s) = strip_edge_dollars (clean_latex s).
Proof.
  rewrite (clean_latex_eq (clean_latex s)).
  now rewrite filter_fixed by apply clean_latex_no_space.
Qed.

Lemma strip_edge_dollars_fixed u :
  forallb not_space u = true ->
  (strip_edge_dollars u = u
   <-> starts_with DOLLAR u = false /\ ends_with DOLLAR u = false).
Proof.
  intros Hs. destruct u as [|c t]; [now split|].
  simpl in Hs. apply andb_true_iff in Hs as [Hc Hs].
  unfold starts_with. simpl head_is. simpl strip_edge_dollars.
  rewrite (N.eqb_sym DOLLAR c).
  destruct (c =? DOLLAR)%N eqn:Ec.
  - split; [|intros [? _]; discriminate].
    intros H. exfalso.
    pose proof (strip_end_dollar_le t) as Hle.
    rewrite H in Hle. simpl in Hle. lia.
  - split.
    + intros H. split; [reflexivity|].
      destruct (ends_with DOLLAR (c :: t)) eqn:He; [exfalso|reflexivity].
      destruct t as [|d u].
      * simpl in He. rewrite N.eqb_sym in He. congruence.
      * change (ends_with DOLLAR (c :: d :: u)) with (ends_with DOLLAR (d :: u)) in He.
        apply strip_end_dollar_lt in He.
        assert (H' : strip_end_dollar (d :: u) = d :: u)
          by (injection H as H; exact H).
        rewrite H' in He. lia.
    + intros [_ He]. f_equal. apply strip_end_dollar_fixed; [exact Hs|].
      destruct t as [|d u]; [reflexivity | exact He].
Qed.

End CleanFacts.
Import CleanFacts.

(** C3 as the specification has it: cleaning twice is cleaning once. *)
Definition clean_idempotent_at (s : str) : Prop :=
  clean_latex (clean_latex s) = clean_latex s.

(** C3, counterexample: a display-math wrapper keeps one [$] on each side
    after the first cleaning and loses it in the second. *)
Lemma clean_latex_not_idempotent :
  ~ clean_idempotent_at (lit "$$x$$").
Proof. unfold clean_idempotent_at. vm_compute. discriminate. Qed.

(** C3, amended: cleaning removes every whitespace character and then one
    leading and one trailing [$]; cleaning twice equals cleaning once exactly
    when the cleaned text neither starts nor ends with [$]. *)
Theorem clean_latex_idempotent_iff (s : str) :
  clean_idempotent_at s
  <-> starts_with DOLLAR (clean_latex s) = false
      /\ ends_with DOLLAR (clean_latex s) = false.
Proof.
  unfold clean_idempotent_at. rewrite clean_latex_twice.
  apply strip_edge_dollars_fixed, clean_latex_no_space.
Qed.

(** ** The macro translator *)

Module TranslateFacts.

Lemma strip_prefix_app (w l : str) : strip_prefix w (w ++ l) = Some l.
Proof.
  induction w as [|a w IH]; simpl; [reflexivity|].
  now rewrite N.eqb_refl.
Qed.

Lemma rmatch_seq (r1 r2 : regex) (st : mstate) (k : cont) :
  rmatch (Seq r1 r2) st k = rmatch r1 st (fun st' => rmatch r2 st' k).
Proof. reflexivity. Qed.

Lemma rmatch_lit (w l : str) (pos : nat) (caps : list (nat * str)) (k : cont) :
  rmatch (Lit w) (MState pos (w ++ l) caps) k
  = k (MState (pos + length w) l caps).
Proof. simpl. now rewrite strip_prefix_app. Qed.

(** A group [([^c]+)] takes the whole run up to the first [c]. *)
Lemma rmatch_group_run (n : nat) (c : char) (a t : str) (pos : nat)
    (caps : list (nat * str)) (k : cont) (res : mstate) :
  a <> [] -> ~ In c a ->
  (forall st', st' = MState (pos + length a) (c :: t) ((n, a) :: caps) ->
     k st' = Some res) ->
  rmatch (Grp n (Rep true 1 None (not_chr c))) (MState pos (a ++ c :: t) caps) k
  = Some res.
Proof.
  intros Ha Hc Hk. specialize (Hk _ eq_refl). simpl.
  assert (Hall : forallb (not_chr c) a = true).
  { apply forallb_forall. intros x Hx. unfold not_chr.
    apply negb_true_iff, N.eqb_neq. intros ->. now apply Hc. }
  assert (Hstop : not_chr c c = false).
  { unfold not_chr. now rewrite N.eqb_refl. }
  assert (Hspan : span (not_chr c) (a ++ c :: t) = length a)
    by now apply span_app_stop.
  apply rep_greedy_span; rewrite Hspan.
  - destruct a; [congruence | simpl; lia].
  - simpl. rewrite skipn_length_app.
    replace (pos + length a - pos) with (length a) by lia.
    now rewrite firstn_length_app.
Qed.

(** The fraction [\frac{a}{b}] and what the first rule makes of it. *)
Definition frac (a b : str) : str :=
  lit "\frac{" ++ a ++ lit "}{" ++ b ++ lit "}".

Definition quotient (a b : str) : str :=
  lit "(" ++ a ++ lit ")/(" ++ b ++ lit ")".

Definition FRAC_TEMPLATE : list titem :=
  [TLit (lit "("); TRef 1; TLit (lit ")/("); TRef 2; TLit (lit ")")].

Lemma attempt_frac (a b rest : str) (pos : nat) :
  a <> [] -> b <> [] -> ~ In RBRACE a -> ~ In RBRACE b ->
  attempt FRAC false pos (frac a b ++ rest)
  = Some (MState (pos + length (frac a b)) rest [(2, b); (1, a)]).
Proof.
  intros Ha Hb Hna Hnb. unfold attempt, FRAC, frac.
  set (r3 := Seq (braced 2) (Lit [RBRACE])).
  set (r2 := Seq (Lit (lit "}{")) r3).
  set (r1 := Seq (braced 1) r2).
  rewrite <- !app_assoc.
  rewrite rmatch_seq, rmatch_lit.
  change (lit "}{" ++ b ++ lit "}" ++ rest)
    with (RBRACE :: LBRACE :: b ++ RBRACE :: rest).
  unfold r1. rewrite rmatch_seq. unfold braced at 1.
  apply rmatch_group_run; [exact Ha | exact Hna |]. intros st1 ->.
  change (RBRACE :: LBRACE :: b ++ RBRACE :: rest)
    with (lit "}{" ++ b ++ RBRACE :: rest).
  unfold r2. rewrite rmatch_seq, rmatch_lit.
  unfold r3. rewrite rmatch_seq. unfold braced.
  apply rmatch_group_run; [exact Hb | exact Hnb |]. intros st2 ->.
  change (RBRACE :: rest) with ([RBRACE] ++ rest).
  rewrite rmatch_lit. cbn -[lit length].
  f_equal. f_equal. rewrite !length_app. simpl. lia.
Qed.

Lemma expand_frac pos rest a b :
  expand_template FRAC_TEMPLATE (MState pos rest [(2, b); (1, a)])
  = quotient a b.
Proof.
  unfold expand_template, FRAC_TEMPLATE, quotient. simpl. reflexivity.
Qed.

Lemma frac_nonempty a b : 0 < length (frac a b).
Proof. unfold frac. rewrite length_app. simpl. lia. Qed.

(** The first rule on a text that holds one fraction, where no attempt
    succeeds before or after it. *)
Lemma sub_frac_in_context (pre a b post : str) :
  a <> [] -> b <> [] -> ~ In RBRACE a -> ~ In RBRACE b ->
  (forall i, i < length pre ->
     attempt FRAC false i (skipn i (pre ++ frac a b ++ post)) = None) ->
  (forall i, i <= length post ->
     attempt FRAC false (length pre + length (frac a b) + i) (skipn i post) = None) ->
  Re.sub FRAC FRAC_TEMPLATE (pre ++ frac a b ++ post)
  = pre ++ quotient a b ++ post.
Proof.
  intros Ha Hb Hna Hnb Hpre Hpost.
  rewrite sub_eq. unfold sub_at.
  rewrite scan_prefix by exact Hpre.
  rewrite render_app, render_keep. f_equal.
  pose proof (frac_nonempty a b) as Hlen.
  rewrite (scan_hit _ _ _ _ (length (frac a b))
             (attempt_frac a b post (0 + length pre) Ha Hb Hna Hnb) eq_refl).
  2:{ rewrite length_app. lia. }
  rewrite skipn_length_app.
  change (render ?t (Hit ?st :: ?l)) with (expand_template t st ++ render t l).
  rewrite expand_frac. f_equal.
  rewrite scan_no_match by exact Hpost. apply render_keep.
Qed.

Lemma attempt_frac_nil pos b : attempt FRAC b pos [] = None.
Proof. reflexivity. Qed.

(** The first rule on a fraction that stands alone. *)
Lemma sub_frac (a b : str) :
  a <> [] -> b <> [] -> ~ In RBRACE a -> ~ In RBRACE b ->
  Re.sub FRAC FRAC_TEMPLATE (frac a b) = quotient a b.
Proof.
  intros Ha Hb Hna Hnb.
  pose proof (sub_frac_in_context [] a b [] Ha Hb Hna Hnb) as H.
  simpl app in H. rewrite !app_nil_r in H. apply H.
  - intros i Hi. simpl in Hi. lia.
  - intros i Hi. simpl in Hi. assert (i = 0) by lia. subst i. reflexivity.
Qed.

Lemma apply_rules_cons r tpl rs s :
  apply_rules ((r, tpl) :: rs) s = apply_rules rs (Re.sub r tpl s).
Proof. reflexivity. Qed.

(** Rules that start with a character the text lacks change nothing. *)
Lemma apply_rules_absent (a : char) (rs : list (regex * list titem)) (s : str) :
  Forall (fun rt => first_char (fst rt) = Some a) rs ->
  ~ In a s -> apply_rules rs s = s.
Proof.
  intros Hrs Hs. induction Hrs as [|[r tpl] rs Hr _ IH]; [reflexivity|].
  rewrite apply_rules_cons, (sub_absent_char r tpl a s Hr Hs). exact IH.
Qed.

Lemma rules_start_with_backslash :
  Forall (fun rt => first_char (fst rt) = Some BACKSLASH) rules.
Proof. repeat constructor. Qed.

(** A fraction passes the delimiter stripping unchanged. *)
Lemma strip_frac (a b : str) : strip (frac a b) = frac a b.
Proof.
  unfold frac.
  change (lit "\frac{" ++ a ++ lit "}{" ++ b ++ lit "}")
    with (BACKSLASH :: lit "frac{" ++ a ++ lit "}{" ++ b ++ [RBRACE]).
  rewrite !app_assoc. apply strip_fixed; reflexivity.
Qed.

Lemma ends_with_snoc (c d : char) (s : str) :
  ends_with c (s ++ [d]) = (c =? d)%N.
Proof.
  induction s as [|x s IH]; [reflexivity|].
  simpl app. destruct (s ++ [d]) eqn:E; [now destruct s|].
  exact IH.
Qed.

Lemma strip_end_dollar_closed (s : str) (d : char) :
  d <> DOLLAR -> d <> NEWLINE -> strip_end_dollar (s ++ [d]) = s ++ [d].
Proof.
  intros Hd Hn. induction s as [|c s IH]; simpl.
  - apply N.eqb_neq in Hd. now rewrite Hd.
  - rewrite IH. replace (at_eol (s ++ [d])) with false;
      [now rewrite andb_false_r|].
    destruct s as [|x s]; simpl.
    + symmetry. now apply N.eqb_neq.
    + now destruct (s ++ [d]) eqn:E; [destruct s|].
Qed.

Lemma strip_edge_dollars_closed (c : char) (s : str) (d : char) :
  c <> DOLLAR -> d <> DOLLAR -> d <> NEWLINE ->
  strip_edge_dollars (c :: s ++ [d]) = c :: s ++ [d].
Proof.
  intros Hc Hd Hn. unfold strip_edge_dollars.
  apply N.eqb_neq in Hc. rewrite Hc. f_equal.
  now apply strip_end_dollar_closed.
Qed.

Lemma sub_edge_frac (a b : str) :
  Re.sub EDGE_DOLLAR [] (frac a b) = frac a b.
Proof.
  rewrite sub_edge. unfold frac.
  change (lit "\frac{" ++ a ++ lit "}{" ++ b ++ lit "}")
    with (BACKSLASH :: lit "frac{" ++ a ++ lit "}{" ++ b ++ [RBRACE]).
  rewrite !app_assoc. apply strip_edge_dollars_closed; discriminate.
Qed.

End TranslateFacts.
Import TranslateFacts.

Module NestedFacts.

Ltac notin :=
  let H := fresh "Hin" in
  intro H;
  repeat first [rewrite in_app_iff in H | progress simpl in H];
  unfold BACKSLASH, RBRACE, LBRACE in *;
  intuition (try discriminate; eauto).

(** The text [\name{x}]. *)
Definition macro_call (name : string) (x : str) : str :=
  BACKSLASH :: lit name ++ [LBRACE] ++ x ++ [RBRACE].

Lemma attempt_macro1 (name : string) (x rest : str) (pos : nat) :
  x <> [] -> ~ In RBRACE x ->
  attempt (macro1 name) false pos (macro_call name x ++ rest)
  = Some (MState (pos + length (macro_call name x)) rest [(1, x)]).
Proof.
  intros Hx Hn. unfold attempt, macro1, macro_call.
  set (r2 := Seq (braced 1) (Lit [RBRACE])).
  replace ((BACKSLASH :: lit name ++ [LBRACE] ++ x ++ [RBRACE]) ++ rest)
    with ((BACKSLASH :: lit name ++ [LBRACE]) ++ x ++ RBRACE :: rest).
  2:{ cbn [app]. f_equal. repeat (rewrite <- app_assoc; cbn [app]).
      reflexivity. }
  rewrite rmatch_seq, rmatch_lit. unfold r2. rewrite rmatch_seq. unfold braced.
  apply rmatch_group_run; [exact Hx | exact Hn |]. intros st1 ->.
  change (RBRACE :: rest) with ([RBRACE] ++ rest).
  rewrite rmatch_lit. cbn -[lit length].
  f_equal. f_equal. simpl. rewrite !length_app. simpl. rewrite !length_app.
  simpl. lia.
Qed.

Lemma expand_call1 name pos rest x :
  expand_template (call1 name) (MState pos rest [(1, x)])
  = lit name ++ lit "(" ++ x ++ lit ")".
Proof.
  unfold expand_template, call1. simpl.
  now rewrite <- !app_assoc.
Qed.

(** A macro call that is the whole text is rewritten to a function call. *)
Lemma sub_macro1 (name : string) (x : str) :
  x <> [] -> ~ In RBRACE x ->
  Re.sub (macro1 name) (call1 name) (macro_call name x)
  = lit name ++ lit "(" ++ x ++ lit ")".
Proof.
  intros Hx Hn. rewrite sub_eq.
  pose proof (attempt_macro1 name x [] 0 Hx Hn) as Ha.
  rewrite app_nil_r in Ha.
  rewrite (sub_at_hit _ _ _ _ _ (length (macro_call name x)) Ha eq_refl).
  2:{ split; [simpl; lia | lia]. }
  rewrite expand_call1, skipn_all.
  rewrite sub_at_nil by reflexivity. now rewrite app_nil_r.
Qed.

(** A pattern that starts with a character found only at the start of the
    text, and does not match there, changes nothing. *)
Lemma sub_only_head (r : regex) (tpl : list titem) (a c : char) (tail : str) :
  first_char r = Some a -> ~ In a tail ->
  attempt r false 0 (c :: tail) = None ->
  Re.sub r tpl (c :: tail) = c :: tail.
Proof.
  intros Hf Hn H0. rewrite sub_eq. apply sub_at_no_match.
  intros [|i] _; [exact H0|]. simpl.
  apply attempt_first_char with (a := a); [exact Hf|].
  now apply head_is_skipn_notin.
Qed.

Lemma tail_rules_start_with_backslash :
  Forall (fun rt => first_char (fst rt) = Some BACKSLASH) (tl rules).
Proof. exact (Forall_inv_tail rules_start_with_backslash). Qed.

Lemma translate_frac (a b : str) :
  a <> [] -> b <> [] -> ~ In RBRACE a -> ~ In RBRACE b ->
  translate (frac a b) = apply_rules (tl rules) (quotient a b).
Proof.
  intros Ha Hb Hna Hnb. unfold translate.
  rewrite strip_frac, sub_edge_frac.
  change rules with ((FRAC, FRAC_TEMPLATE) :: tl rules) at 1.
  now rewrite apply_rules_cons, sub_frac.
Qed.

Lemma quotient_no_backslash a b :
  ~ In BACKSLASH a -> ~ In BACKSLASH b -> ~ In BACKSLASH (quotient a b).
Proof. intros Ha Hb. unfold quotient. notin. Qed.

Lemma quotient_no_rbrace a b :
  ~ In RBRACE a -> ~ In RBRACE b -> ~ In RBRACE (quotient a b).
Proof. intros Ha Hb. unfold quotient. notin. Qed.

Lemma translate_frac_plain (a b : str) :
  a <> [] -> b <> [] -> ~ In RBRACE a -> ~ In RBRACE b ->
  ~ In BACKSLASH a -> ~ In BACKSLASH b ->
  translate (frac a b) = quotient a b.
Proof.
  intros Ha Hb Hna Hnb Hsa Hsb. rewrite translate_frac by assumption.
  apply apply_rules_absent with (a := BACKSLASH).
  - exact tail_rules_start_with_backslash.
  - now apply quotient_no_backslash.
Qed.

(** A fraction as the operand of a sine: the fraction is rewritten first,
    the sine after it. *)
Lemma translate_sin_frac (a b : str) :
  a <> [] -> b <> [] -> ~ In RBRACE a -> ~ In RBRACE b ->
  ~ In BACKSLASH a -> ~ In BACKSLASH b ->
  translate (macro_call "sin" (frac a b))
  = lit "sin(" ++ quotient a b ++ lit ")".
Proof.
  intros Ha Hb Hna Hnb Hsa Hsb. unfold translate.
  assert (Hq : ~ In BACKSLASH (quotient a b)) by now apply quotient_no_backslash.
  assert (Hr : ~ In RBRACE (quotient a b)) by now apply quotient_no_rbrace.
  (* the delimiters *)
  assert (E0 : Re.sub EDGE_DOLLAR [] (strip (macro_call "sin" (frac a b)))
               = macro_call "sin" (frac a b)).
  { unfold macro_call. rewrite !app_assoc.
    rewrite strip_fixed by reflexivity. rewrite sub_edge.
    apply strip_edge_dollars_closed; discriminate. }
  rewrite E0. clear E0.
  (* the fraction *)
  assert (E1 : Re.sub FRAC FRAC_TEMPLATE (macro_call "sin" (frac a b))
               = macro_call "sin" (quotient a b)).
  { change (macro_call "sin" (frac a b))
      with (lit "\sin{" ++ frac a b ++ lit "}").
    rewrite sub_frac_in_context; try assumption; [reflexivity | |].
    - intros i Hi.
      destruct i as [|[|[|[|[|i]]]]]; try reflexivity. simpl in Hi. lia.
    - intros i _. destruct i as [|[|i]]; reflexivity. }
  (* the square roots: nothing to do *)
  assert (Htail : ~ In BACKSLASH (lit "sin" ++ [LBRACE] ++ quotient a b ++ [RBRACE])).
  { notin. }
  assert (E2 : Re.sub (macro1 "sqrt") (call1 "sqrt") (macro_call "sin" (quotient a b))
               = macro_call "sin" (quotient a b)).
  { unfold macro_call.
    apply sub_only_head with (a := BACKSLASH); [reflexivity | exact Htail | reflexivity]. }
  assert (E3 : Re.sub NTH_ROOT
                 [TLit (lit "("); TRef 2; TLit (lit ")**(1/("); TRef 1; TLit (lit "))")]
                 (macro_call "sin" (quotient a b))
               = macro_call "sin" (quotient a b)).
  { unfold macro_call.
    apply sub_only_head with (a := BACKSLASH); [reflexivity | exact Htail | reflexivity]. }
  (* the sine *)
  assert (E4 : Re.sub (macro1 "sin") (call1 "sin") (macro_call "sin" (quotient a b))
               = lit "sin(" ++ quotient a b ++ lit ")").
  { rewrite sub_macro1; [reflexivity | | exact Hr].
    unfold quotient. discriminate. }
  unfold rules.
  rewrite apply_rules_cons. fold FRAC_TEMPLATE. rewrite E1.
  rewrite apply_rules_cons, E2, apply_rules_cons, E3, apply_rules_cons, E4.
  apply apply_rules_absent with (a := BACKSLASH).
  - repeat constructor.
  - notin.
Qed.

End NestedFacts.
Import NestedFacts.

(** C4 as the specification has it: the fraction rule turns [\frac{A}{B}]
    into [(A)/(B)] whatever the operands are. *)
Definition frac_rewritten (a b : str) : Prop :=
  Re.sub FRAC FRAC_TEMPLATE (frac a b) = quotient a b.

(** C4, counterexample: with [\sqrt{2}] as numerator the fraction rule finds
    no match, since an operand is a run of characters other than [}]; the
    root is rewritten afterwards and the fraction stays as it was. *)
Lemma frac_of_sqrt_not_rewritten :
  ~ frac_rewritten (lit "\sqrt{2}") (lit "3")
  /\ translate (frac (lit "\sqrt{2}") (lit "3")) = lit "\frac{sqrt(2)}{3}".
Proof.
  split.
  - unfold frac_rewritten. vm_compute. discriminate.
  - vm_compute. reflexivity.
Qed.

(** C4, amended: the rewrites are applied in the order of the table,
    fractions and roots before the trigonometric functions; for non-empty
    operands without [}] the fraction rule turns [\frac{A}{B}] into
    [(A)/(B)] and the later rules work on that text; when the operands hold
    no macro the translation is [(A)/(B)], and a fraction inside a sine
    becomes [sin((A)/(B))]. *)
Theorem frac_rule_first (a b : str) :
  a <> [] -> b <> [] -> ~ In RBRACE a -> ~ In RBRACE b ->
  firstn 6 (List.map fst rules)
    = [FRAC; macro1 "sqrt"; NTH_ROOT; macro1 "sin"; macro1 "cos"; macro1 "tan"]
  /\ frac_rewritten a b
  /\ translate (frac a b) = apply_rules (tl rules) (quotient a b)
  /\ (~ In BACKSLASH a -> ~ In BACKSLASH b ->
      translate (frac a b) = quotient a b
      /\ translate (macro_call "sin" (frac a b))
         = lit "sin(" ++ quotient a b ++ lit ")").
Proof.
  intros Ha Hb Hna Hnb. split; [reflexivity|]. split; [|split].
  - now apply sub_frac.
  - now apply translate_frac.
  - intros Hsa Hsb. split.
    + now apply translate_frac_plain.
    + now apply translate_sin_frac.
Qed.

Lemma frac_rule_first_witness :
  frac_rewritten (lit "x+1") (lit "2")
  /\ translate (macro_call "sin" (frac (lit "x+1") (lit "2")))
     = lit "sin((x+1)/(2))".
Proof.
  destruct (frac_rule_first (lit "x+1") (lit "2")) as (_ & H1 & _ & H3);
    try discriminate; try notin.
  split; [exact H1|]. apply H3; notin.
Defined.

(** ** [extract_math_expr] *)

Module ExtractFacts.

Lemma attempt_false_eq (r : regex) (pos : nat) (l : str) :
  attempt r false pos l = rmatch r (MState pos l []) Some.
Proof. reflexivity. Qed.

Lemma rep_greedy_done p caps pos l k :
  rep_greedy p 0 (Some 0) caps pos l k = k (MState pos l caps).
Proof.
  destruct l as [|c t]; simpl; [reflexivity|].
  now rewrite andb_false_r.
Qed.

(** [c{1,2}], greedy: two characters of the class first, then one. *)
Lemma rep_greedy_1_2 p caps pos l k :
  rep_greedy p 1 (Some 2) caps pos l k
  = match l with
    | x :: t =>
        if p x then
          match t with
          | y :: u =>
              if p y then
                match k (MState (S (S pos)) u caps) with
                | Some r => Some r
                | None => k (MState (S pos) t caps)
                end
              else k (MState (S pos) t caps)
          | [] => k (MState (S pos) [] caps)
          end
        else None
    | [] => None
    end.
Proof.
  destruct l as [|x t]; [reflexivity|].
  cbn [rep_greedy]. destruct (p x); [|reflexivity].
  cbn [andb can_more dec option_map pred].
  destruct t as [|y u].
  - cbn [rep_greedy]. now destruct (k _).
  - cbn [rep_greedy]. destruct (p y); cbn [andb can_more dec option_map pred].
    + rewrite rep_greedy_done.
      destruct (k (MState (S (S pos)) u caps)); [reflexivity|].
      now destruct (k _).
    + now destruct (k _).
Qed.

(** The content the lazy group settles on: the text up to the next [$],
    which no line break may precede. *)
Fixpoint content_of (l : str) : option str :=
  match l with
  | [] => None
  | x :: t =>
      if (DOLLAR =? x)%N then Some []
      else if (x =? NEWLINE)%N then None
      else option_map (cons x) (content_of t)
  end.

(** The content of the match that starts at the head of [l], if any. *)
Definition match_here (l : str) : option str :=
  match l with
  | x :: t =>
      if (DOLLAR =? x)%N then
        match t with
        | y :: u =>
            if (DOLLAR =? y)%N then
              match content_of u with
              | Some c => Some c
              | None => content_of t
              end
            else content_of t
        | [] => None
        end
      else None
  | [] => None
  end.

(** The rest of the pattern after the opening delimiter. *)
Definition after_open : regex :=
  Seq (Grp 1 (Rep false 0 None dot)) (Rep true 1 (Some 2) (is_chr DOLLAR)).

(** The continuation of the lazy loop: close group 1, opened at [p1] on
    [l1], and match the closing delimiter. *)
Definition closing (p1 : nat) (l1 : str) : cont :=
  fun st2 =>
    rep_greedy (is_chr DOLLAR) 1 (Some 2)
      ((1, firstn (ms_pos st2 - p1) l1) :: ms_caps st2)
      (ms_pos st2) (ms_rest st2) Some.

Lemma closing_dollar p1 l1 pos t caps :
  exists st, closing p1 l1 (MState pos (DOLLAR :: t) caps) = Some st
             /\ ms_caps st = (1, firstn (pos - p1) l1) :: caps
             /\ pos < ms_pos st.
Proof.
  unfold closing. rewrite rep_greedy_1_2. cbn [ms_pos ms_rest ms_caps].
  unfold is_chr at 1. rewrite N.eqb_refl.
  destruct t as [|y u].
  - eexists. split; [reflexivity|]. simpl. split; [reflexivity | lia].
  - destruct (is_chr DOLLAR y);
      (eexists; split; [reflexivity|]; simpl; split; [reflexivity | lia]).
Qed.

Lemma closing_other p1 l1 pos x t caps :
  (DOLLAR =? x)%N = false ->
  closing p1 l1 (MState pos (x :: t) caps) = None.
Proof.
  intros Hx. unfold closing. rewrite rep_greedy_1_2.
  cbn [ms_pos ms_rest ms_caps]. unfold is_chr. now rewrite Hx.
Qed.

Lemma closing_nil p1 l1 pos caps : closing p1 l1 (MState pos [] caps) = None.
Proof. reflexivity. Qed.

Lemma rep_lazy_content (p1 : nat) :
  forall l pre,
    match content_of l with
    | Some c =>
        exists st,
          rep_lazy dot 0 None [] (p1 + length pre) l (closing p1 (pre ++ l))
          = Some st
          /\ group 1 (ms_caps st) = pre ++ c
          /\ p1 + length pre < ms_pos st
    | None =>
        rep_lazy dot 0 None [] (p1 + length pre) l (closing p1 (pre ++ l)) = None
    end.
Proof.
  induction l as [|x t IH]; intros pre.
  - reflexivity.
  - cbn [content_of rep_lazy].
    destruct (DOLLAR =? x)%N eqn:Ex.
    + apply N.eqb_eq in Ex. subst x.
      destruct (closing_dollar p1 (pre ++ DOLLAR :: t) (p1 + length pre) t [])
        as (st & E & Hc & Hp).
      rewrite E. exists st. split; [reflexivity|]. split; [|exact Hp].
      rewrite Hc. simpl.
      replace (p1 + length pre - p1) with (length pre) by lia.
      now rewrite firstn_length_app, app_nil_r.
    + rewrite closing_other by exact Ex.
      assert (Hdot : dot x = negb (x =? NEWLINE)%N) by reflexivity.
      rewrite Hdot. clear Hdot.
      destruct (x =? NEWLINE)%N;
        cbn [negb andb can_more dec option_map]; [reflexivity|].
      specialize (IH (pre ++ [x])).
      rewrite <- app_assoc, length_app in IH. simpl in IH.
      replace (p1 + (length pre + 1)) with (S (p1 + length pre)) in IH by lia.
      destruct (content_of t) as [c|].
      * destruct IH as (st & E & Hg & Hp). exists st.
        split; [exact E|]. split; [|lia].
        rewrite Hg. now rewrite <- app_assoc.
      * exact IH.
Qed.

Lemma after_open_spec (p1 : nat) (l1 : str) :
  match content_of l1 with
  | Some c =>
      exists st, rmatch after_open (MState p1 l1 []) Some = Some st
                 /\ group 1 (ms_caps st) = c /\ p1 < ms_pos st
  | None => rmatch after_open (MState p1 l1 []) Some = None
  end.
Proof.
  pose proof (rep_lazy_content p1 l1 []) as H.
  simpl app in H. simpl length in H. rewrite Nat.add_0_r in H.
  exact H.
Qed.

Lemma content_of_dollar t : content_of (DOLLAR :: t) = Some [].
Proof. reflexivity. Qed.

(** One attempt of the pattern, by the content it reports. *)
Lemma attempt_delimited (pos : nat) (l : str) :
  match match_here l with
  | Some c =>
      exists st, attempt DELIMITED false pos l = Some st
                 /\ group 1 (ms_caps st) = c /\ pos < ms_pos st
  | None => attempt DELIMITED false pos l = None
  end.
Proof.
  rewrite attempt_false_eq. unfold DELIMITED. fold after_open.
  set (ao := after_open).
  rewrite TranslateFacts.rmatch_seq.
  change (rmatch (Rep true 1 (Some 2) (is_chr DOLLAR)) (MState pos l []) ?k)
    with (rep_greedy (is_chr DOLLAR) 1 (Some 2) [] pos l k).
  rewrite rep_greedy_1_2. unfold match_here, is_chr. subst ao.
  destruct l as [|x t]; [reflexivity|].
  destruct (DOLLAR =? x)%N; [|reflexivity].
  destruct t as [|y u].
  - exact (after_open_spec (S pos) []).
  - destruct (DOLLAR =? y)%N eqn:Ey.
    + pose proof (after_open_spec (S (S pos)) u) as H2.
      pose proof (after_open_spec (S pos) (y :: u)) as H1.
      destruct (content_of u) as [c|].
      * destruct H2 as (st & E & Hg & Hp). rewrite E.
        exists st. repeat split; [exact Hg | lia].
      * rewrite H2.
        destruct (content_of (y :: u)) as [c|].
        -- destruct H1 as (st & E & Hg & Hp). exists st.
           repeat split; [exact E | exact Hg | lia].
        -- exact H1.
    + pose proof (after_open_spec (S pos) (y :: u)) as H1.
      destruct (content_of (y :: u)) as [c|].
      * destruct H1 as (st & E & Hg & Hp). exists st.
        repeat split; [exact E | exact Hg | lia].
      * exact H1.
Qed.

End ExtractFacts.
Import ExtractFacts.

Module DelimitedFacts.

(** One or two [$] characters. *)
Definition delim (d : str) : Prop := d = [DOLLAR] \/ d = [DOLLAR; DOLLAR].

Lemma content_of_sound (l c : str) :
  content_of l = Some c ->
  exists r, l = c ++ DOLLAR :: r /\ ~ In NEWLINE c.
Proof.
  revert c. induction l as [|x t IH]; intros c H; [discriminate|].
  simpl in H. destruct (DOLLAR =? x)%N eqn:Ex.
  - apply N.eqb_eq in Ex. subst x. injection H as <-.
    exists t. split; [reflexivity | now intros []].
  - destruct (x =? NEWLINE)%N eqn:En; [discriminate|].
    destruct (content_of t) as [c'|]; [|discriminate].
    injection H as <-. destruct (IH c' eq_refl) as (r & E & Hn).
    exists r. split; [simpl; now rewrite E|].
    intros [->|Hin]; [|now apply Hn].
    now rewrite N.eqb_refl in En.
Qed.

Lemma content_of_complete (c r : str) :
  ~ In NEWLINE c -> content_of (c ++ DOLLAR :: r) <> None.
Proof.
  induction c as [|x c IH]; intros Hn; simpl.
  - discriminate.
  - destruct (DOLLAR =? x)%N; [discriminate|].
    destruct (x =? NEWLINE)%N eqn:En.
    + apply N.eqb_eq in En. subst x. exfalso. apply Hn. now left.
    + destruct (content_of (c ++ DOLLAR :: r)) eqn:E; [discriminate|].
      exfalso. apply IH; [|reflexivity]. intros Hin. apply Hn. now right.
Qed.

Lemma match_here_sound (l c : str) :
  match_here l = Some c ->
  exists d1 d2 post,
    l = d1 ++ c ++ d2 ++ post /\ delim d1 /\ delim d2 /\ ~ In NEWLINE c.
Proof.
  unfold match_here. intros H.
  destruct l as [|x t]; [discriminate|].
  destruct (DOLLAR =? x)%N eqn:Ex; [|discriminate].
  apply N.eqb_eq in Ex. subst x.
  assert (H1 : content_of t = Some c ->
               exists d1 d2 post,
                 DOLLAR :: t = d1 ++ c ++ d2 ++ post
                 /\ delim d1 /\ delim d2 /\ ~ In NEWLINE c).
  { intros E. destruct (content_of_sound _ _ E) as (r & -> & Hn).
    exists [DOLLAR], [DOLLAR], r. repeat split; [now left | now left | exact Hn]. }
  destruct t as [|y u]; [discriminate|].
  destruct (DOLLAR =? y)%N eqn:Ey; [|now apply H1].
  destruct (content_of u) as [c'|] eqn:Eu; [|now apply H1].
  injection H as ->. apply N.eqb_eq in Ey. subst y.
  destruct (content_of_sound _ _ Eu) as (r & -> & Hn).
  exists [DOLLAR; DOLLAR], [DOLLAR], r.
  repeat split; [now right | now left | exact Hn].
Qed.

Lemma match_here_complete (l d1 c d2 post : str) :
  l = d1 ++ c ++ d2 ++ post -> delim d1 -> delim d2 -> ~ In NEWLINE c ->
  match_here l <> None.
Proof.
  intros -> H1 H2 Hn.
  assert (Hd2 : exists r, d2 ++ post = DOLLAR :: r).
  { destruct H2 as [-> | ->]; eexists; reflexivity. }
  destruct Hd2 as (r & Er). rewrite Er.
  pose proof (content_of_complete c r Hn) as Hc.
  destruct H1 as [-> | ->]; simpl app; unfold match_here; rewrite N.eqb_refl.
  - destruct (c ++ DOLLAR :: r) as [|y u] eqn:E; [now destruct c|].
    destruct (DOLLAR =? y)%N; [|exact Hc].
    destruct (content_of u); [discriminate | exact Hc].
  - destruct (content_of (c ++ DOLLAR :: r)); [discriminate | congruence].
Qed.

(** The first piece of a scan where an attempt succeeds is that match. *)
Lemma scan_head_hit (r : regex) (pos : nat) (l : str) (st : mstate) :
  attempt r false pos l = Some st ->
  exists tl, scan r pos l 0 = Hit st :: tl.
Proof.
  intros H. destruct l as [|c t].
  - change (scan r pos [] 0) with
      (match attempt r false pos [] with
       | None => []
       | Some st =>
           Hit st ::
           if Nat.eqb (ms_pos st) pos then
             match attempt r true pos [] with
             | Some st' => [Hit st']
             | None => []
             end
           else []
       end).
    rewrite H. eexists. reflexivity.
  - change (scan r pos (c :: t) 0) with
      (match attempt r false pos (c :: t) with
       | None => Keep c :: scan r (S pos) t 0
       | Some st =>
           Hit st ::
           if Nat.eqb (ms_pos st) pos then
             match attempt r true pos (c :: t) with
             | Some st' => Hit st' :: scan r (S pos) t (ms_pos st' - pos - 1)
             | None => Keep c :: scan r (S pos) t 0
             end
           else scan r (S pos) t (ms_pos st - pos - 1)
       end).
    rewrite H. eexists. reflexivity.
Qed.

Lemma hits_keep (l : str) : hits (List.map Keep l) = [].
Proof. induction l as [|c t IH]; [reflexivity | exact IH]. Qed.

Lemma hits_app a b : hits (a ++ b) = hits a ++ hits b.
Proof. unfold hits. apply flat_map_app. Qed.

(** The leftmost position where an attempt succeeds, or none at all. *)
Lemma first_success (r : regex) :
  forall l pos,
    (forall i, i <= length l -> attempt r false (pos + i) (skipn i l) = None)
    \/ (exists i st,
          i <= length l
          /\ (forall j, j < i -> attempt r false (pos + j) (skipn j l) = None)
          /\ attempt r false (pos + i) (skipn i l) = Some st).
Proof.
  induction l as [|c t IH]; intros pos.
  - destruct (attempt r false pos []) as [st|] eqn:E.
    + right. exists 0, st. rewrite Nat.add_0_r. repeat split; [lia | | exact E].
      intros j Hj. lia.
    + left. intros i Hi. simpl in Hi. assert (i = 0) by lia. subst i.
      now rewrite Nat.add_0_r.
  - destruct (attempt r false pos (c :: t)) as [st|] eqn:E.
    + right. exists 0, st. rewrite Nat.add_0_r.
      repeat split; [simpl; lia | | exact E]. intros j Hj. lia.
    + destruct (IH (S pos)) as [Hnone | (i & st & Hi & Hbefore & Hat)].
      * left. intros [|i] Hi; [now rewrite Nat.add_0_r|].
        simpl skipn. replace (pos + S i) with (S pos + i) by lia.
        apply Hnone. simpl in Hi. lia.
      * right. exists (S i), st. simpl skipn.
        replace (pos + S i) with (S pos + i) by lia.
        repeat split; [simpl; lia | | exact Hat].
        intros [|j] Hj; [now rewrite Nat.add_0_r|].
        simpl skipn. replace (pos + S j) with (S pos + j) by lia.
        apply Hbefore. lia.
Qed.

Lemma findall_none (r : regex) (s : str) :
  (forall i, i <= length s -> attempt r false i (skipn i s) = None) ->
  Re.findall r s = [].
Proof.
  intros H. rewrite findall_eq, scan_no_match by exact H. apply hits_keep.
Qed.

Lemma findall_first (r : regex) (s : str) (i : nat) (st : mstate) :
  i <= length s ->
  (forall j, j < i -> attempt r false j (skipn j s) = None) ->
  attempt r false i (skipn i s) = Some st ->
  exists tl, Re.findall r s = group 1 (ms_caps st) :: tl.
Proof.
  intros Hi Hbefore Hat. rewrite findall_eq.
  assert (Es : scan r 0 s 0 = scan r 0 (firstn i s ++ skipn i s) 0)
    by now rewrite firstn_skipn.
  rewrite Es. clear Es.
  rewrite scan_prefix.
  - rewrite length_firstn, Nat.min_l by exact Hi. simpl.
    destruct (scan_head_hit r i (skipn i s) st Hat) as (tl & E).
    rewrite E, hits_app, hits_keep. simpl. eexists. reflexivity.
  - intros j Hj. rewrite length_firstn in Hj.
    rewrite firstn_skipn. apply Hbefore. lia.
Qed.

Lemma length_lstrip (s : str) : length (lstrip s) <= length s.
Proof.
  induction s as [|c t IH]; simpl; [lia|].
  destruct (is_space c); simpl; lia.
Qed.

Lemma length_strip (s : str) : length (strip s) <= length s.
Proof.
  unfold strip, rstrip. rewrite length_rev.
  etransitivity; [apply length_lstrip|]. rewrite length_rev.
  apply length_lstrip.
Qed.

End DelimitedFacts.
Import DelimitedFacts.

(** [raw] holds, from index [i] on, a substring delimited by one or two [$]
    on each side, with content [c]. *)
Definition delimited_at (raw : str) (i : nat) (c : str) : Prop :=
  exists d1 d2 post,
    skipn i raw = d1 ++ c ++ d2 ++ post /\ delim d1 /\ delim d2.

(** C8 as the specification has it: when [raw] holds a delimited substring,
    the result is the trimmed content of a first one; otherwise it is [raw]
    trimmed. *)
Definition extract_by (holds : str -> nat -> str -> Prop) (raw : str) : Prop :=
  ((exists i c, holds raw i c) ->
   exists i c, holds raw i c
               /\ (forall j c', holds raw j c' -> i <= j)
               /\ extract_math_expr raw = strip c)
  /\ (~ (exists i c, holds raw i c) -> extract_math_expr raw = strip raw).

(** C8, counterexample: content that spans a line break is not found, since
    [.] does not match a newline; the delimiters stay in the result. *)
Lemma extract_math_expr_multiline :
  ~ extract_by delimited_at (lit "$a" ++ [NEWLINE] ++ lit "b$").
Proof.
  intros [H _].
  destruct H as (i & c & (d1 & d2 & post & E & H1 & H2) & _ & Hx).
  - exists 0, (lit "a" ++ [NEWLINE] ++ lit "b"), [DOLLAR], [DOLLAR], [].
    repeat split; now left.
  - assert (Hlen : length (extract_math_expr (lit "$a" ++ [NEWLINE] ++ lit "b$")) = 5)
      by reflexivity.
    rewrite Hx in Hlen.
    pose proof (length_strip c) as Hs.
    assert (Hsk : length (skipn i (lit "$a" ++ [NEWLINE] ++ lit "b$")) <= 5).
    { rewrite length_skipn.
      change (length (lit "$a" ++ [NEWLINE] ++ lit "b$")) with 5. lia. }
    rewrite E, !length_app in Hsk.
    assert (1 <= length d1) by (destruct H1 as [-> | ->]; simpl; lia).
    assert (1 <= length d2) by (destruct H2 as [-> | ->]; simpl; lia).
    lia.
Qed.

(** ** The strategies *)

Section StrategyFacts.
Context {cas : SymPy}.

Lemma numeric_absent (a b : str) :
  latex_to_sympy a = None \/ latex_to_sympy b = None ->
  check_numeric_equivalence a b = false.
Proof.
  unfold check_numeric_equivalence. intros [H | H]; rewrite H.
  - reflexivity.
  - now destruct (latex_to_sympy a).
Qed.

Lemma symbolic_absent (a b : str) :
  latex_to_sympy a = None \/ latex_to_sympy b = None ->
  check_symbolic_equivalence a b = false.
Proof.
  unfold check_symbolic_equivalence. intros [H | H]; rewrite H.
  - reflexivity.
  - now destruct (latex_to_sympy a).
Qed.

Lemma algebraic_absent (a b : str) :
  latex_to_sympy a = None \/ latex_to_sympy b = None ->
  check_algebraic_equivalence a b = false.
Proof.
  unfold check_algebraic_equivalence. intros [H | H]; rewrite H.
  - reflexivity.
  - now destruct (latex_to_sympy a).
Qed.

(** The translation looks at its argument through [strip] only. *)
Lemma translate_strip (s : str) : translate (strip s) = translate s.
Proof. unfold translate. now rewrite strip_idem. Qed.

Lemma latex_to_sympy_strip (s : str) :
  latex_to_sympy (strip s) = latex_to_sympy s.
Proof. unfold latex_to_sympy. now rewrite translate_strip. Qed.

Lemma symbolic_strip_r (a b : str) :
  check_symbolic_equivalence a (strip b) = check_symbolic_equivalence a b.
Proof. unfold check_symbolic_equivalence. now rewrite latex_to_sympy_strip. Qed.

Lemma symbolic_strip_l (a b : str) :
  check_symbolic_equivalence (strip a) b = check_symbolic_equivalence a b.
Proof. unfold check_symbolic_equivalence. now rewrite latex_to_sympy_strip. Qed.

(** The text after the first [=], as [split] leaves it. *)
Definition after_equals (e : str) : str := nth 1 (split1 EQUALS e) [].

(** C2 as the specification has it: a reference with [=] is retried on its
    right-hand side when the direct comparison fails; a candidate with [=]
    is retried when the reference has none. *)
Definition are_equivalent_stated (a b : str) : bool :=
  check_symbolic_equivalence a b
  || contains EQUALS b && check_symbolic_equivalence a (after_equals b)
  || contains EQUALS a && negb (contains EQUALS b)
     && check_symbolic_equivalence (after_equals a) b.

(** What the code does: each retry asks that the other side has no [=]. *)
Definition are_equivalent_guarded (a b : str) : bool :=
  check_symbolic_equivalence a b
  || contains EQUALS b && negb (contains EQUALS a)
     && check_symbolic_equivalence a (after_equals b)
  || contains EQUALS a && negb (contains EQUALS b)
     && check_symbolic_equivalence (after_equals a) b.

Lemma are_equivalent_eq (a b : str) :
  are_equivalent a b = are_equivalent_guarded a b.
Proof.
  unfold are_equivalent, are_equivalent_guarded, rhs_of, after_equals.
  rewrite symbolic_strip_r, symbolic_strip_l.
  destruct (check_symbolic_equivalence a b); [reflexivity|].
  simpl.
  destruct (contains EQUALS b && negb (contains EQUALS a)
            && check_symbolic_equivalence a (nth 1 (split1 EQUALS b) []));
    [reflexivity|].
  simpl.
  now destruct (contains EQUALS a && negb (contains EQUALS b)
                && check_symbolic_equivalence (nth 1 (split1 EQUALS a) []) b).
Qed.

End StrategyFacts.

(** ** The handler *)

Section HandlerFacts.
Context {cas : SymPy} {builtins : Builtins}.

Lemma first_match_at (ss : list (string * bool * float)) :
  forall i name ok conf,
    nth_error ss i = Some (name, ok, conf) -> ok = true ->
    (forall j s, j < i -> nth_error ss j = Some s -> snd (fst s) = false) ->
    first_match ss = Some (name, conf).
Proof.
  unfold first_match.
  induction ss as [|[[n o] c] ss IH]; intros i name ok conf Hi Hok Hbefore.
  - now destruct i.
  - destruct i as [|i].
    + simpl in Hi. injection Hi as -> -> ->. subst ok. reflexivity.
    + pose proof (Hbefore 0 (n, o, c) (Nat.lt_0_succ _) eq_refl) as Ho.
      simpl in Ho. subst o. simpl.
      apply (IH i name ok conf Hi Hok).
      intros j s Hj Hs. apply (Hbefore (S j) s); [lia | exact Hs].
Qed.

Lemma first_match_none (ss : list (string * bool * float)) :
  (forall s, In s ss -> snd (fst s) = false) -> first_match ss = None.
Proof.
  unfold first_match. induction ss as [|[[n o] c] ss IH]; intros H.
  - reflexivity.
  - pose proof (H (n, o, c) (or_introl eq_refl)) as Ho. simpl in Ho. subst o.
    simpl. apply IH. intros s Hs. apply H. now right.
Qed.

Lemma check_answer_short (req : AnswerCheckRequest) :
  is_multiple_choice req = false ->
  check_answer req
  = match first_match (strategies (normalized (user_answer req))
                         (normalized (correct_answer req))) with
    | Some (name, conf) =>
        response true conf
          (lit "Answer correct via " ++ lit name ++ lit " comparison") None
    | None =>
        response false 0.0
          (lit "Answer is incorrect. Expected "
             ++ normalized (correct_answer req)
             ++ lit ", got " ++ normalized (user_answer req)) None
    end.
Proof.
  intros H. unfold check_answer, check_answer_body. rewrite H.
  cbv zeta.
  destruct (first_match _) as [[name conf]|]; reflexivity.
Qed.

End HandlerFacts.

(** ** Instances to run the handler on *)

Module Examples.

(** [=] as an assignment sign: not part of [==], [<=], [>=] or [!=]. *)
Fixpoint bare_equals (prev : char) (s : str) : bool :=
  match s with
  | [] => false
  | c :: t =>
      if (c =? EQUALS)%N then
        if ((prev =? 60) || (prev =? 62) || (prev =? 33) || (prev =? EQUALS))%N
        then bare_equals c t
        else match t with
             | d :: _ => if (d =? EQUALS)%N then bare_equals c t else true
             | [] => true
             end
      else bare_equals c t
  end.

(** A stand-in for SymPy: an expression is the text handed to the parser,
    which refuses the empty text and an assignment sign; two expressions are
    equal when their texts are; no expression has a numeric value. *)
Definition text_sympy : SymPy :=
  {| expr := str;
     sympify := fun s =>
       if bare_equals 0%N s || str_eqb s []
       then Raise (OtherError (lit "SympifyError"))
       else Ok (Some s);
     simplify := fun a => Ok a;
     expand := fun a => Ok a;
     factor := fun a => Ok a;
     equals := fun a b => Ok (str_eqb a b);
     minus := fun _ _ => Raise (OtherError (lit "TypeError"));
     eq_zero := fun _ => Ok false;
     to_float := fun _ => Raise (OtherError (lit "TypeError")) |}.

Definition is_digit (c : char) : bool := ((48 <=? c) && (c <=? 57))%N.

Fixpoint digits (acc : Z) (after_digit : bool) (s : str) : option Z :=
  match s with
  | [] => if after_digit then Some acc else None
  | c :: t =>
      if is_digit c then digits (10 * acc + Z.of_N (c - 48)) true t
      else if (c =? 95)%N && after_digit then digits acc false t
      else None
  end.

(** [int] on ASCII decimal literals: surrounding whitespace, a sign, digits
    with single underscores between them; [ValueError] otherwise. *)
Definition int_of_decimal (s : str) : result Z :=
  let t := strip s in
  let signed :=
    match t with
    | c :: r => if (c =? 45)%N then (true, r)
                else if (c =? 43)%N then (false, r) else (false, t)
    | [] => (false, [])
    end in
  match digits 0 false (snd signed) with
  | Some n => Ok (if fst signed then (- n)%Z else n)
  | None => Raise (ValueError (lit "invalid literal for int() with base 10"))
  end.

Definition decimal_int : Builtins := {| py_int := int_of_decimal |}.

(** A builtin that fails with an exception other than [ValueError]. *)
Definition broken_int : Builtins :=
  {| py_int := fun _ => Raise (OtherError (lit "out of memory")) |}.

Definition short_answer (user correct : string) : AnswerCheckRequest :=
  {| user_answer := lit user; correct_answer := lit correct;
     problem_type := Some (lit "general");
     question_type := Some SHORT_ANSWER; selected_option := None |}.

Definition multiple_choice (sel : option Z) (correct : string)
  : AnswerCheckRequest :=
  {| user_answer := []; correct_answer := lit correct;
     problem_type := Some (lit "general");
     question_type := Some MULTIPLE_CHOICE; selected_option := sel |}.

End Examples.
Import Examples.

(** * The claims about the handler *)

Section Claims.
Context {cas : SymPy} {builtins : Builtins}.

(** C1: a short-answer comparison evaluates the strategies exact-text (1.0),
    numeric (0.9), symbolic (0.8), algebraic (0.7) and right-hand side
    (0.95) in this order; the first one that matches gives the verdict, with
    its own weight and the explanation "Answer correct via <name>
    comparison", also when a later strategy of higher weight matches; when
    none matches the verdict is incorrect, 0.0, "Answer is incorrect.
    Expected <reference>, got <candidate>" on the normalized texts. *)
Theorem first_matching_strategy_decides (req : AnswerCheckRequest) :
  is_multiple_choice req = false ->
  let u := normalized (user_answer req) in
  let c := normalized (correct_answer req) in
  let ss := strategies u c in
  ss = [ ("latex_exact"%string, str_eqb u c, 1.0%float);
         ("numeric"%string, check_numeric_equivalence u c, 0.9%float);
         ("symbolic"%string, check_symbolic_equivalence u c, 0.8%float);
         ("algebraic"%string, check_algebraic_equivalence u c, 0.7%float);
         ("rhs_equiv"%string, are_equivalent u c, 0.95%float) ]
  /\ (forall i name conf,
        nth_error ss i = Some (name, true, conf) ->
        (forall j s, j < i -> nth_error ss j = Some s -> snd (fst s) = false) ->
        check_answer req
        = response true conf
            (lit "Answer correct via " ++ lit name ++ lit " comparison") None)
  /\ (str_eqb u c = false -> check_numeric_equivalence u c = false ->
      check_symbolic_equivalence u c = true ->
      are_equivalent u c = true
      /\ confidence (check_answer req) = 0.8%float)
  /\ ((forall s, In s ss -> snd (fst s) = false) ->
      check_answer req
      = response false 0.0
          (lit "Answer is incorrect. Expected " ++ c ++ lit ", got " ++ u) None).
Proof.
  intros Hq u c ss. split; [reflexivity|].
  rewrite (check_answer_short req Hq). fold u c ss.
  split; [|split].
  - intros i name conf Hi Hbefore.
    now rewrite (first_match_at ss i name true conf Hi eq_refl Hbefore).
  - intros H1 H2 H3. split.
    + unfold are_equivalent. now rewrite H3.
    + unfold ss, strategies, first_match. rewrite H1, H2, H3. reflexivity.
  - intros Hnone. now rewrite (first_match_none ss Hnone).
Qed.

(** C2, amended: the right-hand-side strategy matches when the direct
    symbolic comparison does, or when the reference holds [=], the candidate
    does not, and the candidate compares equal to the text after the first
    [=] of the reference, or the same with the two sides exchanged; when
    both sides hold [=] nothing is retried.  It is the fifth strategy, of
    weight 0.95: when it is the first one to match, the verdict is correct
    with confidence 0.95 and names [rhs_equiv]. *)
Theorem rhs_strategy_guarded (a b : str) :
  are_equivalent a b = are_equivalent_guarded a b
  /\ nth_error (strategies a b) 4
     = Some ("rhs_equiv"%string, are_equivalent a b, 0.95%float)
  /\ (contains EQUALS a = true -> contains EQUALS b = true ->
      are_equivalent a b = check_symbolic_equivalence a b)
  /\ (forall req,
        is_multiple_choice req = false ->
        normalized (user_answer req) = a ->
        normalized (correct_answer req) = b ->
        str_eqb a b = false ->
        check_numeric_equivalence a b = false ->
        check_symbolic_equivalence a b = false ->
        check_algebraic_equivalence a b = false ->
        are_equivalent a b = true ->
        check_answer req
        = response true 0.95
            (lit "Answer correct via rhs_equiv comparison") None).
Proof.
  split; [apply are_equivalent_eq|]. split; [reflexivity|]. split.
  - intros Ha Hb. rewrite are_equivalent_eq. unfold are_equivalent_guarded.
    rewrite Ha, Hb. simpl. now rewrite !orb_false_r.
  - intros req Hq Hu Hc H1 H2 H3 H4 H5.
    rewrite (check_answer_short req Hq), Hu, Hc.
    unfold strategies, first_match. rewrite H1, H2, H3, H4, H5. reflexivity.
Qed.


(** C6: the numeric strategy, of weight 0.9, matches exactly when both sides
    parse, both evaluate to a float, and the absolute difference of the two
    floats is below 1e-9; it does not match when a side fails to parse or
    an evaluation raises. *)
Theorem numeric_strategy (a b : str) :
  (check_numeric_equivalence a b = true
   <-> exists s1 s2 f1 f2,
         latex_to_sympy a = Some s1 /\ latex_to_sympy b = Some s2
         /\ to_float s1 = Ok f1 /\ to_float s2 = Ok f2
         /\ PrimFloat.ltb (PrimFloat.abs (PrimFloat.sub f1 f2)) 1e-9 = true)
  /\ (latex_to_sympy a = None \/ latex_to_sympy b = None ->
      check_numeric_equivalence a b = false)
  /\ (forall s1 s2 e,
        latex_to_sympy a = Some s1 -> latex_to_sympy b = Some s2 ->
        to_float s1 = Raise e \/ to_float s2 = Raise e ->
        check_numeric_equivalence a b = false)
  /\ nth_error (strategies a b) 1
     = Some ("numeric"%string, check_numeric_equivalence a b, 0.9%float).
Proof.
  split; [|split; [apply numeric_absent | split; [|reflexivity]]].
  - unfold check_numeric_equivalence. split.
    + destruct (latex_to_sympy a) as [s1|]; [|discriminate].
      destruct (latex_to_sympy b) as [s2|]; [|discriminate].
      destruct (to_float s1) as [f1|e1] eqn:E1; [|discriminate].
      destruct (to_float s2) as [f2|e2] eqn:E2; [|discriminate].
      simpl. intros H. exists s1, s2, f1, f2. now repeat split.
    + intros (s1 & s2 & f1 & f2 & -> & -> & E1 & E2 & H).
      rewrite E1, E2. exact H.
  - intros s1 s2 e H1 H2 Hr. unfold check_numeric_equivalence.
    rewrite H1, H2. destruct Hr as [Hr | Hr]; rewrite Hr; [reflexivity|].
    now destruct (to_float s1).
Qed.

(** C7: the handler returns a verdict for every request: an exception
    raised in its body becomes incorrect, 0.0, "Validation error", with the
    exception text as error message; a short-answer comparison raises none;
    a parse that raises leaves the symbolic form absent, and with an absent
    side the numeric, symbolic and algebraic strategies do not match. *)
Theorem no_exception_escapes :
  (forall req e,
     check_answer_body req = Raise e ->
     check_answer req
     = response false 0.0 (lit "Validation error") (Some (exn_text e)))
  /\ (forall req, is_multiple_choice req = false ->
        exists v, check_answer_body req = Ok v /\ check_answer req = v)
  /\ (forall s e, sympify (translate s) = Raise e -> latex_to_sympy s = None)
  /\ (forall a b,
        latex_to_sympy a = None \/ latex_to_sympy b = None ->
        check_numeric_equivalence a b = false
        /\ check_symbolic_equivalence a b = false
        /\ check_algebraic_equivalence a b = false).
Proof.
  split; [|split; [|split]].
  - intros req e H. unfold check_answer. now rewrite H.
  - intros req Hq. unfold check_answer, check_answer_body. rewrite Hq.
    cbv zeta. destruct (first_match _) as [[name conf]|];
      eexists; split; reflexivity.
  - intros s e H. unfold latex_to_sympy. now rewrite H.
  - intros a b H. split; [|split].
    + now apply numeric_absent.
    + now apply symbolic_absent.
    + now apply algebraic_absent.
Qed.

(** C9: the confidence of every verdict is one of 0.0, 0.7, 0.8, 0.9, 0.95
    and 1.0; it is 0.0 when the answer is judged incorrect and at least 0.7
    when it is judged correct. *)
Theorem confidence_values (req : AnswerCheckRequest) :
  In (confidence (check_answer req))
     [0.0; 0.7; 0.8; 0.9; 0.95; 1.0]%float
  /\ (is_correct (check_answer req) = false ->
      confidence (check_answer req) = 0.0%float)
  /\ (is_correct (check_answer req) = true ->
      PrimFloat.leb 0.7 (confidence (check_answer req)) = true).
Proof.
  destruct (is_multiple_choice req) eqn:Hq.
  - unfold check_answer, check_answer_body. rewrite Hq.
    destruct (selected_option req) as [sel|].
    + destruct (py_int (correct_answer req)) as [idx|[m|m]]; simpl.
      * destruct (Z.eqb sel idx); simpl;
          (split; [tauto | split; [intros; try reflexivity; discriminate
                                  | intros; try reflexivity; discriminate]]).
      * split; [tauto | split; [reflexivity | discriminate]].
      * split; [tauto | split; [reflexivity | discriminate]].
    + simpl. split; [tauto | split; [reflexivity | discriminate]].
  - rewrite (check_answer_short req Hq). unfold strategies, first_match.
    destruct (str_eqb _ _); simpl;
      [split; [tauto | split; [discriminate | reflexivity]]|].
    destruct (check_numeric_equivalence _ _); simpl;
      [split; [tauto | split; [discriminate | reflexivity]]|].
    destruct (check_symbolic_equivalence _ _); simpl;
      [split; [tauto | split; [discriminate | reflexivity]]|].
    destruct (check_algebraic_equivalence _ _); simpl;
      [split; [tauto | split; [discriminate | reflexivity]]|].
    destruct (are_equivalent _ _); simpl;
      [split; [tauto | split; [discriminate | reflexivity]]|].
    split; [tauto | split; [reflexivity | discriminate]].
Qed.

(** C10: a multiple-choice request without a selected index gives
    incorrect, 0.0, "No option selected", and no error message. *)
Theorem no_option_selected (req : AnswerCheckRequest) :
  is_multiple_choice req = true ->
  selected_option req = None ->
  check_answer req = response false 0.0 (lit "No option selected") None
  /\ error_message (check_answer req) = None.
Proof.
  intros Hq Hsel. unfold check_answer, check_answer_body.
  rewrite Hq, Hsel. split; reflexivity.
Qed.

End Claims.

(** ** The claims on concrete requests *)

Lemma first_matching_strategy_decides_witness :
  @check_answer text_sympy decimal_int (short_answer "$$ x $$" "x")
  = response true 1.0 (lit "Answer correct via latex_exact comparison") None.
Proof.
  destruct (@first_matching_strategy_decides text_sympy decimal_int
              (short_answer "$$ x $$" "x") eq_refl) as (_ & H & _ & _).
  apply (H 0 "latex_exact"%string 1.0%float); [reflexivity|].
  intros j s Hj. exfalso. exact (Nat.nlt_0_r j Hj).
Defined.

(** C2, counterexample: with a parser that accepts a comparison such as
    [1>=0], candidate [1>=0] equals the right-hand side of the reference
    [y=1>=0]; the stated retry would match, the code does not retry since
    the candidate holds [=]. *)
Lemma rhs_retry_needs_plain_candidate :
  @are_equivalent text_sympy (lit "1>=0") (lit "y=1>=0")
  <> @are_equivalent_stated text_sympy (lit "1>=0") (lit "y=1>=0").
Proof. vm_compute. discriminate. Qed.

Lemma rhs_strategy_guarded_witness :
  @check_answer text_sympy decimal_int (short_answer "2*x" "y = 2*x")
  = response true 0.95 (lit "Answer correct via rhs_equiv comparison") None.
Proof.
  destruct (@rhs_strategy_guarded text_sympy decimal_int (lit "2*x") (lit "y=2*x"))
    as (_ & _ & _ & H).
  apply H; reflexivity.
Defined.


Lemma no_exception_escapes_witness :
  @check_answer text_sympy broken_int (multiple_choice (Some 1%Z) "2")
  = response false 0.0 (lit "Validation error") (Some (lit "out of memory")).
Proof.
  destruct (@no_exception_escapes text_sympy broken_int) as (H & _).
  exact (H (multiple_choice (Some 1%Z) "2") (OtherError (lit "out of memory"))
           eq_refl).
Defined.

Lemma no_option_selected_witness :
  @check_answer text_sympy decimal_int (multiple_choice None "2")
  = response false 0.0 (lit "No option selected") None.
Proof.
  exact (proj1 (@no_option_selected text_sympy decimal_int
                  (multiple_choice None "2") eq_refl eq_refl)).
Defined.

(** * Further properties of the checker *)

Module MoreStrFacts.

Lemma in_lstrip (c : char) (s : str) : In c (lstrip s) -> In c s.
Proof.
  induction s as [|x s IH]; simpl; [tauto|].
  destruct (is_space x); simpl; tauto.
Qed.

Lemma in_strip (c : char) (s : str) : In c (strip s) -> In c s.
Proof.
  unfold strip, rstrip. intros H.
  apply in_rev, in_lstrip, in_rev in H. now apply in_lstrip.
Qed.

Lemma in_strip_end_dollar (c : char) (l : str) :
  In c (strip_end_dollar l) -> In c l.
Proof.
  induction l as [|x l IH]; simpl; [tauto|].
  destruct ((x =? DOLLAR)%N && at_eol l); simpl; tauto.
Qed.

Lemma in_strip_edge_dollars (c : char) (l : str) :
  In c (strip_edge_dollars l) -> In c l.
Proof.
  destruct l as [|x l]; simpl; [tauto|].
  destruct (x =? DOLLAR)%N; simpl; intros H.
  - right. now apply in_strip_end_dollar.
  - destruct H as [H|H]; [now left | right; now apply in_strip_end_dollar].
Qed.

Lemma length_strip_edge_dollars (l : str) :
  length (strip_edge_dollars l) <= length l.
Proof.
  destruct l as [|x l]; simpl; [lia|].
  pose proof (strip_end_dollar_le l).
  destruct (x =? DOLLAR)%N; simpl; lia.
Qed.

(** Two floats that a test tells apart are different. *)
Lemma float_distinct (f : float -> bool) (a b : float) : f a <> f b -> a <> b.
Proof. intros H E. apply H. now rewrite E. Qed.

End MoreStrFacts.
Import MoreStrFacts.

Section MoreClaims.
Context {cas : SymPy} {builtins : Builtins}.

(** X1: a short-answer request whose two answers have the same normalized
    text is judged correct with confidence 1.0 by the exact-text strategy,
    whatever the parser makes of the text. *)
Theorem same_text_is_correct (req : AnswerCheckRequest) :
  is_multiple_choice req = false ->
  normalized (user_answer req) = normalized (correct_answer req) ->
  check_answer req
  = response true 1.0 (lit "Answer correct via latex_exact comparison") None.
Proof.
  intros Hq He. rewrite (check_answer_short req Hq).
  unfold strategies, first_match. rewrite He, str_eqb_refl. reflexivity.
Qed.

(** X4: the cleaned text holds no whitespace character and is no longer
    than the input. *)
Theorem clean_latex_compact (s : str) :
  (forall c, In c (clean_latex s) -> is_space c = false)
  /\ length (clean_latex s) <= length s.
Proof.
  split.
  - intros c Hc. pose proof (clean_latex_no_space s) as H.
    rewrite forallb_forall in H. specialize (H c Hc).
    unfold not_space in H. now apply negb_true_iff in H.
  - rewrite clean_latex_eq.
    etransitivity; [apply length_strip_edge_dollars|].
    apply filter_length_le.
Qed.

(** X5: a text without a backslash reaches the parser as written, trimmed
    and without one [$] at each end; a text that has no backslash, no [$],
    and neither starts nor ends with whitespace reaches it unchanged. *)
Theorem translate_plain (s : str) :
  ~ In BACKSLASH s ->
  translate s = Re.sub EDGE_DOLLAR [] (strip s)
  /\ (~ In DOLLAR s -> strip s = s -> translate s = s).
Proof.
  intros Hs.
  assert (H1 : translate s = Re.sub EDGE_DOLLAR [] (strip s)).
  { unfold translate. apply apply_rules_absent with (a := BACKSLASH).
    - exact rules_start_with_backslash.
    - rewrite sub_edge. intros Hin.
      apply in_strip_edge_dollars, in_strip in Hin. contradiction. }
  split; [exact H1|].
  intros Hd Hst. rewrite H1, Hst, sub_edge.
  destruct s as [|c t]; [reflexivity|].
  assert (Hc : (c =? DOLLAR)%N = false).
  { apply N.eqb_neq. intros ->. apply Hd. now left. }
  simpl. rewrite Hc. f_equal.
  assert (Ht : ~ In DOLLAR t) by (intros Hin; apply Hd; now right).
  clear - Ht. induction t as [|x t IH]; [reflexivity|]. simpl.
  assert (Hx : (x =? DOLLAR)%N = false).
  { apply N.eqb_neq. intros ->. apply Ht. now left. }
  rewrite Hx. simpl. f_equal. apply IH. intros Hin. apply Ht. now right.
Qed.

(** X9: a match of the symbolic strategy is a match of the right-hand-side
    strategy too, so a verdict of confidence 0.95 is only given to a
    short-answer request whose symbolic comparison failed and where exactly
    one of the two normalized texts holds [=]. *)
Theorem rhs_verdict_needs_one_equation (req : AnswerCheckRequest) :
  confidence (check_answer req) = 0.95%float ->
  let u := normalized (user_answer req) in
  let c := normalized (correct_answer req) in
  is_multiple_choice req = false
  /\ check_symbolic_equivalence u c = false
  /\ are_equivalent u c = true
  /\ xorb (contains EQUALS u) (contains EQUALS c) = true.
Proof.
  intros H u c.
  assert (Hne : forall x, In x [0.0; 0.7; 0.8; 0.9; 1.0]%float -> x <> 0.95%float).
  { intros x Hx.
    apply (float_distinct
             (fun y => PrimFloat.ltb 0.92 y && PrimFloat.ltb y 0.97)%float).
    simpl in Hx.
    repeat (destruct Hx as [<-|Hx]; [vm_compute; discriminate|]).
    contradiction. }
  destruct (is_multiple_choice req) eqn:Hq.
  - exfalso. revert H. unfold check_answer, check_answer_body. rewrite Hq.
    destruct (selected_option req) as [sel|].
    + destruct (py_int (correct_answer req)) as [idx|[m|m]]; simpl.
      * destruct (Z.eqb sel idx); simpl; apply Hne; simpl; tauto.
      * apply Hne; simpl; tauto.
      * apply Hne; simpl; tauto.
    + simpl. apply Hne; simpl; tauto.
  - split; [reflexivity|].
    rewrite (check_answer_short req Hq) in H. fold u c in H.
    unfold strategies, first_match in H.
    destruct (str_eqb u c);
      [exfalso; revert H; simpl; apply Hne; simpl; tauto|].
    destruct (check_numeric_equivalence u c);
      [exfalso; revert H; simpl; apply Hne; simpl; tauto|].
    destruct (check_symbolic_equivalence u c) eqn:Hsym;
      [exfalso; revert H; simpl; apply Hne; simpl; tauto|].
    destruct (check_algebraic_equivalence u c);
      [exfalso; revert H; simpl; apply Hne; simpl; tauto|].
    destruct (are_equivalent u c) eqn:Hrhs;
      [|exfalso; revert H; simpl; apply Hne; simpl; tauto].
    split; [reflexivity|]. split; [reflexivity|].
    rewrite are_equivalent_eq in Hrhs. unfold are_equivalent_guarded in Hrhs.
    rewrite Hsym in Hrhs. simpl in Hrhs.
    destruct (contains EQUALS u), (contains EQUALS c); simpl in *;
      try reflexivity; discriminate.
Qed.

(** X10: the three parsing strategies look at their arguments through
    [strip]: whitespace around either side changes no outcome. *)
Theorem strategies_ignore_outer_space (a b : str) :
  check_numeric_equivalence (strip a) (strip b) = check_numeric_equivalence a b
  /\ check_symbolic_equivalence (strip a) (strip b)
     = check_symbolic_equivalence a b
  /\ check_algebraic_equivalence (strip a) (strip b)
     = check_algebraic_equivalence a b.
Proof.
  unfold check_numeric_equivalence, check_symbolic_equivalence,
    check_algebraic_equivalence.
  now rewrite !latex_to_sympy_strip.
Qed.

End MoreClaims.

Lemma same_text_is_correct_witness :
  @check_answer text_sympy decimal_int (short_answer "$ x+1 $" "x + 1")
  = response true 1.0 (lit "Answer correct via latex_exact comparison") None
  /\ @check_answer text_sympy decimal_int (short_answer "" "")
     = response true 1.0 (lit "Answer correct via latex_exact comparison") None.
Proof.
  split.
  - exact (@same_text_is_correct text_sympy decimal_int
             (short_answer "$ x+1 $" "x + 1") eq_refl eq_refl).
  - exact (@same_text_is_correct text_sympy decimal_int
             (short_answer "" "") eq_refl eq_refl).
Defined.

Lemma translate_plain_witness :
  translate (lit " $x^2+1$ ") = lit "x^2+1" /\ translate (lit "x/2") = lit "x/2".
Proof.
  split.
  - destruct (translate_plain (lit " $x^2+1$ ")) as (H & _); [|exact H].
    unfold BACKSLASH. simpl. intuition discriminate.
  - destruct (translate_plain (lit "x/2")) as (_ & H).
    + unfold BACKSLASH. simpl. intuition discriminate.
    + apply H; [|reflexivity]. unfold DOLLAR. simpl. intuition discriminate.
Defined.

Lemma rhs_verdict_needs_one_equation_witness :
  @check_symbolic_equivalence text_sympy (lit "2x") (lit "y=2x") = false
  /\ xorb (contains EQUALS (lit "2x")) (contains EQUALS (lit "y=2x")) = true.
Proof.
  destruct (@rhs_verdict_needs_one_equation text_sympy decimal_int
              (short_answer "2x" "y=2x") eq_refl) as (_ & H1 & _ & H2).
  split; [exact H1 | exact H2].
Defined.

(** ** More on [extract_math_expr] *)

Module ExtractMore.

Lemma match_here_not_dollar (l : str) :
  head_is DOLLAR l = false -> match_here l = None.
Proof.
  destruct l as [|x t]; [reflexivity|]. simpl. intros H.
  unfold match_here. now rewrite H.
Qed.

Lemma content_of_exact (c r : str) :
  ~ In DOLLAR c -> ~ In NEWLINE c -> content_of (c ++ DOLLAR :: r) = Some c.
Proof.
  induction c as [|x c IH]; intros Hd Hn.
  - reflexivity.
  - simpl.
    assert (Hx : (DOLLAR =? x)%N = false).
    { apply N.eqb_neq. intros E. apply Hd. now left. }
    assert (Hy : (x =? NEWLINE)%N = false).
    { apply N.eqb_neq. intros E. apply Hn. now left. }
    rewrite Hx, Hy, IH; [reflexivity | |].
    + intros Hin. apply Hd. now right.
    + intros Hin. apply Hn. now right.
Qed.

(** The result when the leftmost match starts at index [i]. *)
Lemma extract_first_match (raw : str) (i : nat) (c : str) :
  i <= length raw ->
  (forall j, j < i -> match_here (skipn j raw) = None) ->
  match_here (skipn i raw) = Some c ->
  extract_math_expr raw = strip c.
Proof.
  intros Hi Hbefore Hat.
  pose proof (attempt_delimited i (skipn i raw)) as Hs. rewrite Hat in Hs.
  destruct Hs as (st & Es & Hg & _).
  destruct (findall_first DELIMITED raw i st Hi) as (tl & Ef); [|exact Es|].
  - intros j Hj. pose proof (attempt_delimited j (skipn j raw)) as Hs.
    now rewrite (Hbefore j Hj) in Hs.
  - unfold extract_math_expr. now rewrite Ef, Hg.
Qed.

Lemma extract_no_match (raw : str) :
  (forall j, j <= length raw -> match_here (skipn j raw) = None) ->
  extract_math_expr raw = strip raw.
Proof.
  intros H. unfold extract_math_expr. rewrite findall_none; [reflexivity|].
  intros j Hj. pose proof (attempt_delimited j (skipn j raw)) as Hs.
  now rewrite (H j Hj) in Hs.
Qed.

Lemma head_is_skipn_prefix (a : char) (pre l : str) (j : nat) :
  ~ In a pre -> j < length pre -> head_is a (skipn j (pre ++ l)) = false.
Proof.
  revert j. induction pre as [|x pre IH]; intros j Hn Hj; simpl in Hj; [lia|].
  destruct j as [|j]; simpl.
  - apply N.eqb_neq. intros ->. apply Hn. now left.
  - apply IH; [|lia]. intros Hin. apply Hn. now right.
Qed.

Definition dollars (s : str) : nat := count_occ N.eq_dec s DOLLAR.

Lemma dollars_skipn (s : str) (j : nat) : dollars (skipn j s) <= dollars s.
Proof.
  unfold dollars.
  assert (E : count_occ N.eq_dec s DOLLAR
              = count_occ N.eq_dec (firstn j s) DOLLAR
                + count_occ N.eq_dec (skipn j s) DOLLAR).
  { rewrite <- count_occ_app. now rewrite firstn_skipn. }
  rewrite E. apply Nat.le_add_l.
Qed.

Lemma match_here_two_dollars (l c : str) :
  match_here l = Some c -> 2 <= dollars l.
Proof.
  intros H. destruct (match_here_sound _ _ H) as (d1 & d2 & post & -> & H1 & H2 & _).
  unfold dollars. rewrite !count_occ_app.
  assert (Hd1 : 1 <= count_occ N.eq_dec d1 DOLLAR)
    by (destruct H1 as [-> | ->]; vm_compute; repeat constructor).
  assert (Hd2 : 1 <= count_occ N.eq_dec d2 DOLLAR)
    by (destruct H2 as [-> | ->]; vm_compute; repeat constructor).
  change 2 with (1 + 1).
  apply Nat.add_le_mono; [exact Hd1|].
  etransitivity; [|apply Nat.le_add_l].
  etransitivity; [exact Hd2 | apply Nat.le_add_r].
Qed.

End ExtractMore.
Import ExtractMore.

(** X6: text before the first [$] and after the closing one is dropped: for
    a content [c] without [$] and without line break, [pre$c$post] with [c]
    not empty and [pre$$c$$post] both give [c] trimmed, whatever [post] is,
    when [pre] holds no [$]. *)
Theorem extract_wrapped (pre c post : str) :
  ~ In DOLLAR pre -> ~ In DOLLAR c -> ~ In NEWLINE c ->
  (c <> [] ->
   extract_math_expr (pre ++ [DOLLAR] ++ c ++ [DOLLAR] ++ post) = strip c)
  /\ extract_math_expr (pre ++ [DOLLAR; DOLLAR] ++ c ++ [DOLLAR; DOLLAR] ++ post)
     = strip c.
Proof.
  intros Hp Hd Hn. split.
  - intros Hc. apply extract_first_match with (i := length pre).
    + rewrite length_app. lia.
    + intros j Hj. apply match_here_not_dollar.
      now apply head_is_skipn_prefix.
    + rewrite skipn_length_app. simpl app. unfold match_here.
      rewrite N.eqb_refl.
      destruct c as [|y u]; [congruence|]. simpl app.
      assert (Hy : (DOLLAR =? y)%N = false).
      { apply N.eqb_neq. intros E. apply Hd. now left. }
      cbv beta iota. rewrite Hy.
      exact (content_of_exact (y :: u) post Hd Hn).
  - apply extract_first_match with (i := length pre).
    + rewrite length_app. lia.
    + intros j Hj. apply match_here_not_dollar.
      now apply head_is_skipn_prefix.
    + rewrite skipn_length_app. simpl app. unfold match_here.
      rewrite !N.eqb_refl.
      now rewrite (content_of_exact c (DOLLAR :: post) Hd Hn).
Qed.

Lemma extract_wrapped_witness :
  extract_math_expr (lit "so $ x+1 $ holds") = lit "x+1"
  /\ extract_math_expr (lit "$$x$$") = lit "x".
Proof.
  assert (Hp : ~ In DOLLAR (lit "so "))
    by (unfold DOLLAR; simpl; intuition discriminate).
  assert (Hd : ~ In DOLLAR (lit " x+1 "))
    by (unfold DOLLAR; simpl; intuition discriminate).
  assert (Hn : ~ In NEWLINE (lit " x+1 "))
    by (unfold NEWLINE; simpl; intuition discriminate).
  assert (Hd' : ~ In DOLLAR (lit "x"))
    by (unfold DOLLAR; simpl; intuition discriminate).
  assert (Hn' : ~ In NEWLINE (lit "x"))
    by (unfold NEWLINE; simpl; intuition discriminate).
  split.
  - refine (proj1 (extract_wrapped (lit "so ") (lit " x+1 ") (lit " holds")
                     Hp Hd Hn) _).
    discriminate.
  - exact (proj2 (extract_wrapped [] (lit "x") [] (fun H => H) Hd' Hn')).
Defined.

(** X7: a text with fewer than two [$] characters has no delimited part: the
    result is the text trimmed, a lone [$] included. *)
Theorem extract_needs_two_dollars (raw : str) :
  dollars raw < 2 -> extract_math_expr raw = strip raw.
Proof.
  intros H. apply extract_no_match. intros j _.
  destruct (match_here (skipn j raw)) as [c|] eqn:E; [|reflexivity].
  apply match_here_two_dollars in E.
  pose proof (dollars_skipn raw j). lia.
Qed.

Lemma extract_needs_two_dollars_witness :
  extract_math_expr (lit " 5$ ") = lit "5$".
Proof.
  apply (extract_needs_two_dollars (lit " 5$ ")). vm_compute. lia.
Defined.

(** ** The first delimited part *)

Module FirstFacts.

(** [l] starts with the opening delimiter [d1], the content [c] on one
    line, and a closing delimiter. *)
Definition cand (l d1 c : str) : Prop :=
  exists d2 post,
    l = d1 ++ c ++ d2 ++ post /\ delim d1 /\ delim d2 /\ ~ In NEWLINE c.

Lemma content_of_no_dollar (l c : str) :
  content_of l = Some c -> ~ In DOLLAR c.
Proof.
  revert c. induction l as [|x t IH]; intros c H; [discriminate|].
  simpl in H. destruct (DOLLAR =? x)%N eqn:Ex.
  - injection H as <-. now intros [].
  - destruct (x =? NEWLINE)%N; [discriminate|].
    destruct (content_of t) as [c'|]; [|discriminate].
    injection H as <-. intros [E|Hin].
    + subst x. now rewrite N.eqb_refl in Ex.
    + now apply (IH c' eq_refl).
Qed.

(** The text before the first [$] is the shortest text before a [$]. *)
Lemma first_dollar_min :
  forall a b r r',
    a ++ DOLLAR :: r = b ++ DOLLAR :: r' -> ~ In DOLLAR a ->
    length a <= length b.
Proof.
  induction a as [|x a IH]; intros b r r' E Ha; [simpl; lia|].
  destruct b as [|y b].
  - simpl in E. injection E as Ex _. exfalso. apply Ha. now left.
  - simpl in E. injection E as _ E. simpl.
    apply le_n_S. apply (IH b r r' E). intros Hin. apply Ha. now right.
Qed.

Lemma same_prefix {A : Type} (a b x y : list A) :
  a ++ x = b ++ y -> length a = length b -> a = b.
Proof.
  revert b. induction a as [|u a IH]; intros [|v b] E Hl;
    simpl in *; try discriminate; [reflexivity|].
  injection E as -> E. f_equal. apply IH; [exact E | lia].
Qed.

Lemma delim_closing (d2 post : str) :
  delim d2 -> exists r, d2 ++ post = DOLLAR :: r.
Proof. intros [-> | ->]; eexists; reflexivity. Qed.

Lemma delim_length (d : str) : delim d -> 1 <= length d <= 2.
Proof. intros [-> | ->]; simpl; lia. Qed.

Lemma delim_same (d d' : str) :
  delim d -> delim d' -> length d = length d' -> d = d'.
Proof. intros [-> | ->] [-> | ->]; simpl; intros H; try reflexivity; lia. Qed.

(** What [match_here] reports is a candidate with the longest opening
    delimiter there is and, for it, the shortest content. *)
Lemma match_here_pick (l c0 : str) :
  match_here l = Some c0 ->
  exists d1,
    cand l d1 c0
    /\ (forall d1' c', cand l d1' c' -> length d1' <= length d1)
    /\ (forall c', cand l d1 c' -> length c0 <= length c').
Proof.
  unfold match_here. intros H.
  destruct l as [|x t]; [discriminate|].
  destruct (DOLLAR =? x)%N eqn:Ex; [|discriminate].
  apply N.eqb_eq in Ex. subst x.
  destruct t as [|y u]; [discriminate|].
  (* the opening delimiter is one [$] and the content runs up to the next *)
  assert (Hone : content_of (y :: u) = Some c0 ->
                 (forall d1' c', cand (DOLLAR :: y :: u) d1' c' ->
                                 length d1' <= 1) ->
                 exists d1,
                   cand (DOLLAR :: y :: u) d1 c0
                   /\ (forall d1' c', cand (DOLLAR :: y :: u) d1' c' ->
                                      length d1' <= length d1)
                   /\ (forall c', cand (DOLLAR :: y :: u) d1 c' ->
                                  length c0 <= length c')).
  { intros E Hmax. exists [DOLLAR].
    destruct (content_of_sound _ _ E) as (r & Er & Hn).
    split; [|split].
    - exists [DOLLAR], r. rewrite Er. repeat split; [now left | now left | exact Hn].
    - exact Hmax.
    - intros c' (d2 & post & E' & _ & H2 & _).
      destruct (delim_closing d2 post H2) as (r' & Er').
      rewrite Er' in E'. simpl in E'. injection E' as E'.
      rewrite Er in E'.
      apply (first_dollar_min c0 c' r r' E').
      now apply (content_of_no_dollar _ _ E). }
  destruct (DOLLAR =? y)%N eqn:Ey.
  - apply N.eqb_eq in Ey. subst y.
    destruct (content_of u) as [cu|] eqn:Eu.
    + injection H as ->. exists [DOLLAR; DOLLAR].
      destruct (content_of_sound _ _ Eu) as (r & Er & Hn).
      split; [|split].
      * exists [DOLLAR], r. rewrite Er.
        repeat split; [now right | now left | exact Hn].
      * intros d1' c' (_ & _ & _ & H1 & _). apply (delim_length d1' H1).
      * intros c' (d2 & post & E' & _ & H2 & _).
        destruct (delim_closing d2 post H2) as (r' & Er').
        rewrite Er' in E'. simpl in E'. injection E' as E'.
        rewrite Er in E'.
        apply (first_dollar_min c0 c' r r' E').
        now apply (content_of_no_dollar _ _ Eu).
    + apply Hone; [exact H|].
      intros d1' c' (d2 & post & E' & H1 & H2 & Hn').
      destruct H1 as [-> | ->]; [simpl; lia|]. exfalso.
      destruct (delim_closing d2 post H2) as (r' & Er').
      rewrite Er' in E'. simpl in E'. injection E' as E'.
      apply (content_of_complete c' r' Hn'). now rewrite <- E'.
  - apply Hone; [exact H|].
    intros d1' c' (d2 & post & E' & H1 & _).
    destruct H1 as [-> | ->]; [simpl; lia|]. exfalso.
    simpl in E'. injection E' as E'. subst y.
    now rewrite N.eqb_refl in Ey.
Qed.

(** The candidate with the longest opening delimiter and the shortest
    content is the one [match_here] reports. *)
Lemma match_here_is_pick (l d1 c : str) :
  cand l d1 c ->
  (forall d1' c', cand l d1' c' -> length d1' <= length d1) ->
  (forall c', cand l d1 c' -> length c <= length c') ->
  match_here l = Some c.
Proof.
  intros Hc Hmax Hmin.
  destruct (match_here l) as [c0|] eqn:E.
  - destruct (match_here_pick l c0 E) as (d0 & Hc0 & Hmax0 & Hmin0).
    assert (Hd : d0 = d1).
    { assert (H1 : delim d1) by (destruct Hc as (? & ? & _ & H1 & _); exact H1).
      assert (H1' : delim d0) by (destruct Hc0 as (? & ? & _ & H1' & _); exact H1').
      apply delim_same; [exact H1' | exact H1|].
      apply Nat.le_antisymm.
      - exact (Hmax d0 c0 Hc0).
      - exact (Hmax0 d1 c Hc). }
    subst d0. f_equal.
    assert (Hl : length c0 = length c).
    { apply Nat.le_antisymm; [now apply Hmin0 | now apply Hmin]. }
    destruct Hc as (d2 & post & Ec & _).
    destruct Hc0 as (d2' & post' & Ec0 & _).
    rewrite Ec0 in Ec. apply app_inv_head in Ec.
    exact (same_prefix c0 c _ _ Ec Hl).
  - exfalso. destruct Hc as (d2 & post & Ec & H1 & H2 & Hn).
    exact (match_here_complete l d1 c d2 post Ec H1 H2 Hn E).
Qed.

(** The leftmost index where a function on the suffixes answers. *)
Lemma first_some {A : Type} (f : str -> option A) :
  forall l,
    (forall j, j <= length l -> f (skipn j l) = None)
    \/ (exists i a,
          i <= length l
          /\ (forall j, j < i -> f (skipn j l) = None)
          /\ f (skipn i l) = Some a).
Proof.
  induction l as [|c t IH].
  - destruct (f []) as [a|] eqn:E.
    + right. exists 0, a. repeat split; [simpl; lia | | exact E].
      intros j Hj. lia.
    + left. intros j Hj. simpl in Hj. now destruct j.
  - destruct (f (c :: t)) as [a|] eqn:E.
    + right. exists 0, a. repeat split; [simpl; lia | | exact E].
      intros j Hj. lia.
    + destruct IH as [Hnone | (i & a & Hi & Hbefore & Hat)].
      * left. intros [|j] Hj; [exact E|]. simpl. apply Hnone.
        simpl in Hj. lia.
      * right. exists (S i), a. repeat split; [simpl; lia | | exact Hat].
        intros [|j] Hj; [exact E|]. simpl. apply Hbefore. lia.
Qed.

End FirstFacts.
Import FirstFacts.

(** From index [i] on, [raw] reads the opening delimiter [d1], the content
    [c] without line break, and a closing delimiter, each delimiter one or
    two [$]. *)
Definition candidate (raw : str) (i : nat) (d1 c : str) : Prop :=
  i <= length raw /\ cand (skipn i raw) d1 c.

(** The first candidate, in the order the pattern tries them: the leftmost
    start, there the longest opening delimiter, and for it the shortest
    content. *)
Definition first_candidate (raw : str) (i : nat) (d1 c : str) : Prop :=
  candidate raw i d1 c
  /\ (forall j d1' c', candidate raw j d1' c' -> i <= j)
  /\ (forall d1' c', candidate raw i d1' c' -> length d1' <= length d1)
  /\ (forall c', candidate raw i d1 c' -> length c <= length c').

(** C8, amended: among the substrings delimited by one or two [$] on each
    side whose content has no line break, the result is the trimmed content
    of the first one: the leftmost start, there the longest opening
    delimiter, and for it the shortest content; such a first one exists as
    soon as any exists; when none exists the result is [raw] trimmed.  The
    function is total. *)
Theorem extract_math_expr_first (raw : str) :
  (forall i d1 c,
     first_candidate raw i d1 c -> extract_math_expr raw = strip c)
  /\ ((exists i d1 c, candidate raw i d1 c) ->
      exists i d1 c, first_candidate raw i d1 c)
  /\ (~ (exists i d1 c, candidate raw i d1 c) ->
      extract_math_expr raw = strip raw).
Proof.
  assert (Hcomplete : forall j d1 c,
            candidate raw j d1 c -> match_here (skipn j raw) <> None).
  { intros j d1 c (_ & d2 & post & E & H1 & H2 & Hn).
    exact (match_here_complete _ d1 c d2 post E H1 H2 Hn). }
  assert (Hsound : forall j c0,
            j <= length raw -> match_here (skipn j raw) = Some c0 ->
            exists d1, candidate raw j d1 c0).
  { intros j c0 Hj E. destruct (match_here_pick _ _ E) as (d1 & Hc & _).
    exists d1. now split. }
  split; [|split].
  - intros i d1 c (Hc & Hleft & Hmax & Hmin).
    destruct Hc as (Hi & Hc).
    apply extract_first_match with (i := i); [exact Hi | |].
    + intros j Hj.
      destruct (match_here (skipn j raw)) as [c0|] eqn:E; [|reflexivity].
      exfalso. destruct (Hsound j c0) as (d0 & Hc0); [lia | exact E |].
      specialize (Hleft j d0 c0 Hc0). lia.
    + apply match_here_is_pick with (d1 := d1); [exact Hc | |].
      * intros d1' c' Hc'. apply (Hmax d1' c'). now split.
      * intros c' Hc'. apply Hmin. now split.
  - intros (j & dj & cj & Hj).
    destruct (first_some match_here raw)
      as [Hnone | (i & c0 & Hi & Hbefore & Hat)].
    + exfalso. apply (Hcomplete j dj cj Hj). apply Hnone. exact (proj1 Hj).
    + destruct (match_here_pick _ _ Hat) as (d1 & Hc & Hmax & Hmin).
      exists i, d1, c0. split; [now split|]. split; [|split].
      * intros j' d' c' Hj'.
        destruct (Nat.le_gt_cases i j') as [Hle|Hgt]; [exact Hle|].
        exfalso. apply (Hcomplete j' d' c' Hj'). now apply Hbefore.
      * intros d1' c' (_ & Hc'). now apply (Hmax d1' c').
      * intros c' (_ & Hc'). now apply Hmin.
  - intros Hno. apply extract_no_match. intros j Hj.
    destruct (match_here (skipn j raw)) as [c0|] eqn:E; [|reflexivity].
    exfalso. apply Hno. destruct (Hsound j c0 Hj E) as (d1 & Hc).
    now exists j, d1, c0.
Qed.
